(** * The boltdb object store of polaris-server (package boltdb)

    A shallow embedding of [boltHandler], the implementation of
    [BoltHandler], and of the part of the bolt engine it drives, followed by
    the properties of the generic typed object store: save, load by keys,
    load by filter, partial update, delete and count.

    Layout of the development:
    - Go values seen through [interface{}] and [reflect];
    - the bolt bucket tree with the bucket operations the handler calls;
    - the codec (codec.go) the handler is written against, as an interface;
    - the handler, function by function;
    - the properties. *)

From stdpp Require Import gmap strings list fin_maps sorting.
From Stdlib Require Import Strings.Byte ZArith.

Set Default Proof Using "Type".
Local Open Scope Z_scope.

(** ** Go values *)

(** [[]byte]. *)
Abbreviation bytes := (list byte).

#[global] Instance byte_eq_decision : EqDecision byte := byte_eq_dec.

(** The errors the handler can return.  The first seven are bolt's own
    (errors.go of the engine); the next two are the messages built with
    [errors.New(fmt.Sprintf(...))] in [reflectProtoMsg]; the last stands for
    any error coming out of the codec. *)
Inductive error :=
  | ErrBucketExists
  | ErrBucketNotFound
  | ErrBucketNameRequired
  | ErrKeyRequired
  | ErrKeyTooLarge
  | ErrValueTooLarge
  | ErrIncompatibleValue
  | ErrFieldNotFound (fieldName : string)
  | ErrFieldTypeNotMatch (fieldName : string)
  | ErrCodec (msg : string).

(** What a call can do: return normally, return a non-nil [error], or panic
    (a failed type assertion, a method call on a nil [reflect.Type]). *)
Inductive outcome (A : Type) :=
  | Ok (a : A)
  | Err (e : error)
  | Panic (msg : string).
Arguments Ok {A} a.
Arguments Err {A} e.
Arguments Panic {A} msg.

#[global] Instance outcome_ret : MRet outcome := λ A a, Ok a.
#[global] Instance outcome_bind : MBind outcome := λ A B f m,
  match m with
  | Ok a => f a
  | Err e => Err e
  | Panic msg => Panic msg
  end.

(** Widths of the integer types: [W0] is the platform [int]/[uint]. *)
Inductive width := W0 | W8 | W16 | W32 | W64.

#[global] Instance width_eq_decision : EqDecision width.
Proof. solve_decision. Defined.

(** [reflect.Kind].  The ten integer kinds are [KInt w] and [KUint w]. *)
Inductive Kind :=
  | KInvalid | KBool
  | KInt (w : width) | KUint (w : width)
  | KUintptr | KFloat32 | KFloat64 | KComplex64 | KComplex128
  | KArray | KChan | KFunc | KInterface | KMap | KPtr | KSlice
  | KString | KStruct | KUnsafePointer.

#[global] Instance Kind_eq_decision : EqDecision Kind.
Proof. solve_decision. Defined.

(** A protocol-buffer message behind a pointer: the name of its concrete
    type and its content. *)
Record message := Msg { msg_type : string; msg_content : bytes }.

(** [time.Time], as an instant. *)
Abbreviation time := Z (only parsing).

(** A value behind [interface{}].  [VNil] is the nil interface.  The next
    constructors are the dynamic types the store knows: [string], [bool],
    [int..int64], [uint..uint64], [map[string]string] ([None] is the nil
    map, which is still a typed value and so not the nil interface),
    a pointer that implements [proto.Message], and [time.Time].  [VOther k]
    is a value of any other dynamic type, of kind [k]: a [float64], a slice,
    a [map[string]int] ([KMap]), a pointer that is no message ([KPtr]), a
    struct that is no [time.Time] ([KStruct]), a named type such as
    [type Level int32] ([KInt W32]). *)
Inductive gvalue :=
  | VNil
  | VString (s : string)
  | VBool (b : bool)
  | VInt (w : width) (n : Z)
  | VUint (w : width) (n : Z)
  | VStrMap (m : option (gmap string string))
  | VMsg (m : message)
  | VTime (t : time)
  | VOther (k : Kind).

(** [reflect.TypeOf(v).Kind()]; [reflect.TypeOf(nil)] is the nil [Type], on
    which [Kind()] cannot be called. *)
Definition kindOf (v : gvalue) : option Kind :=
  match v with
  | VNil => None
  | VString _ => Some KString
  | VBool _ => Some KBool
  | VInt w _ => Some (KInt w)
  | VUint w _ => Some (KUint w)
  | VStrMap _ => Some KMap
  | VMsg _ => Some KPtr
  | VTime _ => Some KStruct
  | VOther k => Some k
  end.

(** [propType.Implements(messageType)] and [propType.AssignableTo(timeType)]
    on the dynamic type of a value. *)
Definition implementsMessage (v : gvalue) : bool :=
  match v with VMsg _ => true | _ => false end.

Definition assignableToTime (v : gvalue) : bool :=
  match v with VTime _ => true | _ => false end.

(** A struct instance: its fields in declaration order. *)
Abbreviation object := (list (string * gvalue)).

(** The declared type of a struct field, as [reflect] shows it. *)
Inductive ftype :=
  | TString | TBool
  | TInt (w : width) | TUint (w : width)
  | TStrMap
  | TTime
  | TMsgPtr (name : string)
  | TOtherType (k : Kind).

(** The shape of a prototype instance: [indirectType(reflect.TypeOf(typObject))]
    with its fields in declaration order. *)
Abbreviation shape := (list (string * ftype)).

(** [intoType.FieldByName(fieldName)]. *)
Fixpoint FieldByName (intoType : shape) (fieldName : string) : option ftype :=
  match intoType with
  | [] => None
  | (name, t) :: rest =>
      if decide (name = fieldName) then Some t else FieldByName rest fieldName
  end.

(** [rawFieldType.Implements(messageType)]. *)
Definition typeImplementsMessage (t : ftype) : bool :=
  match t with TMsgPtr _ => true | _ => false end.

(** ** The bolt engine: buckets *)

(** A bucket maps byte-string keys either to a value or to a nested bucket;
    both live in one key space. *)
#[warnings="-register-all"] Inductive node :=
  | Leaf (v : bytes)
  | Sub (b : gmap string node).

(** The content of a [*bolt.Bucket]. *)
Abbreviation Bkt := (gmap string node).

Definition is_Sub (n : node) : bool :=
  match n with Sub _ => true | Leaf _ => false end.

Module bolt.

Definition MaxKeySize : Z := 32768.
Definition MaxValueSize : Z := 2 ^ 31 - 2.

(** [b.Bucket(name)]: nil when the key is absent or holds a plain value. *)
Definition Bucket (b : Bkt) (name : string) : option Bkt :=
  match b !! name with
  | Some (Sub child) => Some child
  | _ => None
  end.

(** [b.Get(key)]: nil when the key is absent or holds a nested bucket. *)
Definition Get (b : Bkt) (key : string) : option bytes :=
  match b !! key with
  | Some (Leaf v) => Some v
  | _ => None
  end.

(** [b.Put(key, value)]. *)
Definition Put (b : Bkt) (key : string) (value : bytes) : outcome Bkt :=
  if decide (String.length key = 0%nat) then Err ErrKeyRequired
  else if decide (MaxKeySize < Z.of_nat (String.length key)) then Err ErrKeyTooLarge
  else if decide (MaxValueSize < Z.of_nat (length value)) then Err ErrValueTooLarge
  else match b !! key with
       | Some (Sub _) => Err ErrIncompatibleValue
       | _ => Ok (<[key := Leaf value]> b)
       end.

(** [b.CreateBucket(key)]: the parent after the call; the new child is
    empty. *)
Definition CreateBucket (b : Bkt) (key : string) : outcome Bkt :=
  if decide (String.length key = 0%nat) then Err ErrBucketNameRequired
  else match b !! key with
       | Some (Sub _) => Err ErrBucketExists
       | Some (Leaf _) => Err ErrIncompatibleValue
       | None => Ok (<[key := Sub ∅]> b)
       end.

(** [b.CreateBucketIfNotExists(key)]: the parent after the call and the
    content of the child ([b.Bucket(key)] when [CreateBucket] reports that
    the bucket exists). *)
Definition CreateBucketIfNotExists (b : Bkt) (key : string)
  : outcome (Bkt * Bkt) :=
  match CreateBucket b key with
  | Ok b' => Ok (b', ∅)
  | Err ErrBucketExists => Ok (b, default ∅ (Bucket b key))
  | Err e => Err e
  | Panic msg => Panic msg
  end.

(** [b.DeleteBucket(key)]. *)
Definition DeleteBucket (b : Bkt) (key : string) : outcome Bkt :=
  match b !! key with
  | None => Err ErrBucketNotFound
  | Some (Leaf _) => Err ErrIncompatibleValue
  | Some (Sub _) => Ok (delete key b)
  end.

(** Keys are visited in byte order. *)
Definition key_le (x y : string) : Prop := String.leb x y = true.

#[global] Instance key_le_dec x y : Decision (key_le x y).
Proof. unfold key_le. apply _. Defined.

(** [b.ForEach(fn)] visits every key of the bucket in key order; a nested
    bucket is visited with a nil value.  This is the sequence of pairs
    handed to [fn]. *)
Definition ForEach (b : Bkt) : list (string * option bytes) :=
  (λ k, (k, Get b k)) <$> merge_sort key_le (map fst (map_to_list b)).

(** A child bucket is a handle into the transaction: what is written
    through it is seen from the parent. *)
Definition store_child (parent : Bkt) (key : string) (child : Bkt)
  : Bkt :=
  <[key := Sub child]> parent.

End bolt.

(** [tx.Bucket(name)] and [tx.CreateBucketIfNotExists(name)] act on the
    root. *)
Definition tx_Bucket (root : Bkt) (name : string) : option Bkt :=
  bolt.Bucket root name.

Definition tx_CreateBucketIfNotExists (root : Bkt) (name : string)
  : outcome (Bkt * Bkt) :=
  bolt.CreateBucketIfNotExists root name.

(** [db.Update(fn)]: [fn] runs on the current root; the transaction commits
    when [fn] returns nil and rolls back when it returns an error or
    panics.  Failures of the file itself (disk, lock) are not part of the
    model. *)
Definition db_Update (root : Bkt) (fn : Bkt → outcome Bkt)
  : Bkt * outcome unit :=
  match fn root with
  | Ok root' => (root', Ok tt)
  | Err e => (root, Err e)
  | Panic msg => (root, Panic msg)
  end.

(** [db.View(fn)] runs [fn] on a snapshot of the root and changes nothing:
    the read operations below are functions of the root. *)

(** ** What the read operations do besides returning *)

(** The scans write warnings to the log and call back into the caller
    (the filter of [LoadValuesByFilter], the processor of [IterateFields]).
    A run is recorded as the sequence of these events. *)
Inductive event :=
  | LogUnrecognizedField (field : string) (typByte : byte)
  | LogBucketNotFound (key typ : string)
  | CallFilter (fieldValues : gmap string gvalue)
  | CallProcess (fieldObj : gvalue).

Abbreviation trace := (list event).

(** A computation with its trace. *)
Definition traced (A : Type) : Type := trace * outcome A.

#[global] Instance traced_ret : MRet traced := λ A a, ([], Ok a).
#[global] Instance traced_bind : MBind traced := λ A B f m,
  match m with
  | (t, Ok a) => let '(t', r) := f a in (t ++ t', r)
  | (t, Err e) => (t, Err e)
  | (t, Panic msg) => (t, Panic msg)
  end.

Definition emit (e : event) : traced unit := ([e], Ok tt).

Definition lift {A} (r : outcome A) : traced A := ([], r).

(** Events that happened before a result was produced. *)
Definition after {A} (t : trace) (r : trace * A) : trace * A :=
  (t ++ r.1, r.2).

(** ** The codec the handler is written against *)

(** codec.go declares the type tags, the field mapper, the tagged-buffer
    encoders and decoders and the record codec.  The handler only calls
    them; it is embedded against this interface, and every property below
    holds for each implementation of it.

    The decoders return a value and an error; the value is what
    [getFieldObject] boxes into [interface{}]. *)
Class Codec := {
  typeString : byte;
  typeBool : byte;
  typeTime : byte;
  typeProtobuf : byte;
  typeInt : byte;
  typeInt8 : byte;
  typeInt16 : byte;
  typeInt32 : byte;
  typeInt64 : byte;
  typeUint : byte;
  typeUint8 : byte;
  typeUint16 : byte;
  typeUint32 : byte;
  typeUint64 : byte;
  numberKindToType : Kind → byte;
  toBucketField : string → string;
  encodeStringBuffer : string → bytes;
  encodeBoolBuffer : bool → bytes;
  encodeIntBuffer : Z → byte → bytes;
  encodeUintBuffer : Z → byte → bytes;
  encodeTimeBuffer : time → bytes;
  encodeMessageBuffer : message → outcome bytes;
  encodeRawMap : Bkt → string → option (gmap string string) → outcome Bkt;
  decodeStringBuffer : string → bytes → gvalue * option error;
  decodeBoolBuffer : string → bytes → gvalue * option error;
  decodeTimeBuffer : string → bytes → gvalue * option error;
  decodeIntBuffer : string → bytes → byte → gvalue * option error;
  decodeUintBuffer : string → bytes → byte → gvalue * option error;
  decodeMessageBuffer : message → string → bytes → outcome gvalue;
  serializeObject : Bkt → object → outcome (Bkt * gmap string bytes);
  deserializeObject : Bkt → shape → outcome object;
}.

(** The tags [getFieldObject] recognises, in the order of its [switch]. *)
Definition recognizedTags `{Codec} : list byte :=
  [typeString; typeBool; typeTime; typeProtobuf;
   typeInt; typeInt8; typeInt16; typeInt32; typeInt64;
   typeUint; typeUint8; typeUint16; typeUint32; typeUint64].

(** ** The handler *)

Section handler.
Context `{Codec}.

(** *** SaveValue *)

(** [for k, v := range buffers { err = bucket.Put([]byte(k), v) ... }] *)
Fixpoint putBuffers (bucket : Bkt) (buffers : list (string * bytes))
  : outcome Bkt :=
  match buffers with
  | [] => Ok bucket
  | (k, v) :: rest => bucket' ← bolt.Put bucket k v; putBuffers bucket' rest
  end.

(** The function passed to [db.Update] by [SaveValue].  A Go map is ranged
    over in an order the runtime picks; [map_to_list] stands for that order
    (by [putBuffers_perm] the writes succeed in one order when they do in
    every other, and end in the same bucket). *)
Definition SaveValue_tx (typ key : string) (value : object) (root : Bkt)
  : outcome Bkt :=
  '(root, typBucket) ← tx_CreateBucketIfNotExists root typ;
  typBucket ← match bolt.Bucket typBucket key with
              | Some _ => bolt.DeleteBucket typBucket key
              | None => Ok typBucket
              end;
  typBucket ← bolt.CreateBucket typBucket key;
  '(bucket, buffers) ← serializeObject ∅ value;
  bucket ← (if decide (0 < size buffers)%nat
            then putBuffers bucket (map_to_list buffers)
            else Ok bucket);
  Ok (bolt.store_child root typ (bolt.store_child typBucket key bucket)).

Definition SaveValue (root : Bkt) (typ key : string) (value : object)
  : Bkt * outcome unit :=
  db_Update root (SaveValue_tx typ key value).

(** *** LoadValues *)

Definition getBucket (root : Bkt) (typ key : string) : option Bkt :=
  match tx_Bucket root typ with
  | None => None
  | Some bucket => bolt.Bucket bucket key
  end.

(** [values] is the caller's map, filled in place: what it holds when the
    function returns is part of the result, also on an error. *)
Fixpoint loadValues (root : Bkt) (typ : string) (keys : list string)
    (typObject : shape) (values : gmap string object)
  : gmap string object * outcome unit :=
  match keys with
  | [] => (values, Ok tt)
  | key :: rest =>
      match getBucket root typ key with
      | None => loadValues root typ rest typObject values
      | Some bucket =>
          match deserializeObject bucket typObject with
          | Ok toObj => loadValues root typ rest typObject (<[key := toObj]> values)
          | Err e => (values, Err e)
          | Panic msg => (values, Panic msg)
          end
      end
  end.

Definition LoadValues (root : Bkt) (typ : string) (keys : list string)
    (typObject : shape) : gmap string object * outcome unit :=
  if decide (length keys = 0%nat) then (∅, Ok tt)
  else loadValues root typ keys typObject ∅.

(** *** Single-field read *)

Definition reflectProtoMsg (typObject : shape) (fieldName : string)
  : outcome message :=
  match FieldByName typObject fieldName with
  | None => Err (ErrFieldNotFound fieldName)
  | Some rawFieldType =>
      match rawFieldType with
      | TMsgPtr name => Ok (Msg name [])
      | _ => Err (ErrFieldTypeNotMatch fieldName)
      end
  end.

(** A nested bucket read as a string map; a nested bucket below it is
    visited by [ForEach] with a nil value. *)
Definition reflectMapMsg (bucket : Bkt) (bucketField : string)
  : outcome (option (gmap string string)) :=
  match bolt.Bucket bucket bucketField with
  | None => Ok None
  | Some subBucket =>
      Ok (Some (list_to_map
        ((λ kv, (kv.1, String.string_of_list_byte (default [] kv.2)))
           <$> bolt.ForEach subBucket)))
  end.

(** [return reflectMapMsg(bucket, bucketField)] inside [getFieldObject]
    converts the [map[string]string] result to [interface{}].  An interface
    value is nil only when it has no dynamic type: this one carries the map
    type, and is not nil even when the map is.  The default case of the
    switch returns the untyped [nil], which is the nil interface.  The
    errors of the five scalar decoders are discarded ([value, _ := ...]). *)
Definition getFieldObject (bucket : Bkt) (typObject : shape) (field : string)
  : traced gvalue :=
  let bucketField := toBucketField field in
  let valueBytes := default [] (bolt.Get bucket bucketField) in
  match valueBytes with
  | [] => m ← lift (reflectMapMsg bucket bucketField); mret (VStrMap m)
  | typByte :: _ =>
      if decide (typByte = typeString) then
        mret (decodeStringBuffer bucketField valueBytes).1
      else if decide (typByte = typeBool) then
        mret (decodeBoolBuffer bucketField valueBytes).1
      else if decide (typByte = typeTime) then
        mret (decodeTimeBuffer bucketField valueBytes).1
      else if decide (typByte = typeProtobuf) then
        msg ← lift (reflectProtoMsg typObject field);
        lift (decodeMessageBuffer msg field valueBytes)
      else if decide (typByte ∈ [typeInt; typeInt8; typeInt16; typeInt32; typeInt64]) then
        mret (decodeIntBuffer field valueBytes typByte).1
      else if decide (typByte ∈ [typeUint; typeUint8; typeUint16; typeUint32; typeUint64]) then
        mret (decodeUintBuffer field valueBytes typByte).1
      else
        emit (LogUnrecognizedField field typByte);; mret VNil
  end.

(** The loop of [matchObject] that builds [fieldValues]. *)
Fixpoint matchObject_range (bucket : Bkt) (fields : list string)
    (typObject : shape) (fieldValues : gmap string gvalue)
  : traced (gmap string gvalue) :=
  match fields with
  | [] => mret fieldValues
  | field :: rest =>
      value ← getFieldObject bucket typObject field;
      match value with
      | VNil => matchObject_range bucket rest typObject fieldValues
      | _ => matchObject_range bucket rest typObject (<[field := value]> fieldValues)
      end
  end.

Definition matchObject (bucket : Bkt) (fields : list string)
    (typObject : shape) (filter : option (gmap string gvalue → bool))
  : traced bool :=
  if decide (length fields = 0%nat) then mret true
  else match filter with
       | None => mret true
       | Some filter =>
           fieldValues ← matchObject_range bucket fields typObject ∅;
           emit (CallFilter fieldValues);;
           mret (filter fieldValues)
       end.

(** *** LoadValuesByFilter *)

Definition getKeys (bucket : Bkt) : list string :=
  fst <$> bolt.ForEach bucket.

(** A scan of the handler: the events of the run, the caller's map as the
    run left it, and the error returned. *)
Abbreviation scanned := (trace * (gmap string object * outcome unit))%type.

(** [for _, key := range keys { ... }] in [loadValuesByFilter]. *)
Fixpoint loadValuesByFilter_range (typeBucket : Bkt) (typ : string)
    (keys : list string) (fields : list string) (typObject : shape)
    (filter : option (gmap string gvalue → bool))
    (values : gmap string object) : scanned :=
  match keys with
  | [] => ([], (values, Ok tt))
  | key :: rest =>
      match bolt.Bucket typeBucket key with
      | None =>
          after [LogBucketNotFound key typ]
            (loadValuesByFilter_range typeBucket typ rest fields typObject filter values)
      | Some bucket =>
          match matchObject bucket fields typObject filter with
          | (t, Err e) => (t, (values, Err e))
          | (t, Panic msg) => (t, (values, Panic msg))
          | (t, Ok false) =>
              after t
                (loadValuesByFilter_range typeBucket typ rest fields typObject filter values)
          | (t, Ok true) =>
              match deserializeObject bucket typObject with
              | Err e => (t, (values, Err e))
              | Panic msg => (t, (values, Panic msg))
              | Ok targetObj =>
                  after t
                    (loadValuesByFilter_range typeBucket typ rest fields typObject filter
                       (<[key := targetObj]> values))
              end
          end
      end
  end.

Definition loadValuesByFilter (root : Bkt) (typ : string)
    (fields : list string) (typObject : shape)
    (filter : option (gmap string gvalue → bool))
    (values : gmap string object) : scanned :=
  match tx_Bucket root typ with
  | None => ([], (values, Ok tt))
  | Some typeBucket =>
      let keys := getKeys typeBucket in
      if decide (length keys = 0%nat) then ([], (values, Ok tt))
      else loadValuesByFilter_range typeBucket typ keys fields typObject filter values
  end.

Definition LoadValuesByFilter (root : Bkt) (typ : string)
    (fields : list string) (typObject : shape)
    (filter : option (gmap string gvalue → bool)) : scanned :=
  loadValuesByFilter root typ fields typObject filter ∅.

(** *** IterateFields *)

Fixpoint IterateFields_range (typeBucket : Bkt) (typ : string)
    (keys : list string) (field : string) (typObject : shape) : traced unit :=
  match keys with
  | [] => mret tt
  | key :: rest =>
      match bolt.Bucket typeBucket key with
      | None =>
          emit (LogBucketNotFound key typ);;
          IterateFields_range typeBucket typ rest field typObject
      | Some bucket =>
          fieldObj ← getFieldObject bucket typObject field;
          emit (CallProcess fieldObj);;
          IterateFields_range typeBucket typ rest field typObject
      end
  end.

(** [filter] is the processor; only whether it is nil matters here, its
    calls are in the trace. *)
Definition IterateFields (root : Bkt) (typ : string) (field : string)
    (typObject : shape) (filterIsNil : bool) : traced unit :=
  if filterIsNil then mret tt
  else match tx_Bucket root typ with
       | None => mret tt
       | Some typeBucket =>
           let keys := getKeys typeBucket in
           if decide (length keys = 0%nat) then mret tt
           else IterateFields_range typeBucket typ keys field typObject
       end.

(** *** DeleteValues *)

Fixpoint deleteValues_range (typeBucket : Bkt) (keys : list string)
  : outcome Bkt :=
  match keys with
  | [] => Ok typeBucket
  | key :: rest =>
      match bolt.Bucket typeBucket key with
      | Some _ =>
          typeBucket' ← bolt.DeleteBucket typeBucket key;
          deleteValues_range typeBucket' rest
      | None => deleteValues_range typeBucket rest
      end
  end.

Definition deleteValues (typ : string) (keys : list string) (root : Bkt)
  : outcome Bkt :=
  match tx_Bucket root typ with
  | None => Ok root
  | Some typeBucket =>
      typeBucket' ← deleteValues_range typeBucket keys;
      Ok (bolt.store_child root typ typeBucket')
  end.

Definition DeleteValues (root : Bkt) (typ : string) (keys : list string)
  : Bkt * outcome unit :=
  if decide (length keys = 0%nat) then (root, Ok tt)
  else db_Update root (deleteValues typ keys).

(** *** CountValues *)

(** [typeBucket.ForEach(func(k, v []byte) error { count++; return nil })] *)
Definition CountValues (root : Bkt) (typ : string) : Z * outcome unit :=
  match tx_Bucket root typ with
  | None => (0, Ok tt)
  | Some typeBucket =>
      (foldl (λ count _, count + 1) 0 (bolt.ForEach typeBucket), Ok tt)
  end.

(** *** UpdateValue *)

(** Type assertions [propValue.(T)]: they panic when the dynamic type is
    not exactly [T]. *)
Definition assertString (v : gvalue) : outcome string :=
  match v with VString s => Ok s | _ => Panic "interface conversion" end.

Definition assertBool (v : gvalue) : outcome bool :=
  match v with VBool b => Ok b | _ => Panic "interface conversion" end.

Definition assertStrMap (v : gvalue) : outcome (option (gmap string string)) :=
  match v with VStrMap m => Ok m | _ => Panic "interface conversion" end.

Definition assertMessage (v : gvalue) : outcome message :=
  match v with VMsg m => Ok m | _ => Panic "interface conversion" end.

Definition assertTime (v : gvalue) : outcome time :=
  match v with VTime t => Ok t | _ => Panic "interface conversion" end.

Definition convertInt64Value (value : gvalue) (kind : Kind) : outcome Z :=
  match kind with
  | KInt w =>
      match value with
      | VInt w' n => if decide (w' = w) then Ok n else Panic "interface conversion"
      | _ => Panic "interface conversion"
      end
  | _ => Ok 0
  end.

Definition convertUint64Value (value : gvalue) (kind : Kind) : outcome Z :=
  match kind with
  | KUint w =>
      match value with
      | VUint w' n => if decide (w' = w) then Ok n else Panic "interface conversion"
      | _ => Panic "interface conversion"
      end
  | _ => Ok 0
  end.

(** The body of [for propKey, propValue := range properties]: the record
    bucket after the iteration, or the error (or panic) that ends the
    transaction.  The switch is on the kind alone.  The [Ptr] and [Struct]
    cases test the type ([Implements], [AssignableTo]) before they assert
    it and do nothing otherwise; the other cases assert the type unchecked.
    The arguments of a call are evaluated before the call, so a failing
    assertion panics before anything is written. *)
Definition UpdateValue_property (bucket : Bkt) (propKey : string)
    (propValue : gvalue) : outcome Bkt :=
  let bucketKey := toBucketField propKey in
  match kindOf propValue with
  | None => Panic "invalid memory address or nil pointer dereference"
  | Some kind =>
      match kind with
      | KString =>
          s ← assertString propValue;
          bolt.Put bucket bucketKey (encodeStringBuffer s)
      | KBool =>
          b ← assertBool propValue;
          bolt.Put bucket bucketKey (encodeBoolBuffer b)
      | KInt _ =>
          n ← convertInt64Value propValue kind;
          bolt.Put bucket bucketKey (encodeIntBuffer n (numberKindToType kind))
      | KUint _ =>
          n ← convertUint64Value propValue kind;
          bolt.Put bucket bucketKey (encodeUintBuffer n (numberKindToType kind))
      | KMap =>
          m ← assertStrMap propValue;
          encodeRawMap bucket bucketKey m
      | KPtr =>
          if implementsMessage propValue then
            msg ← assertMessage propValue;
            msgBuf ← encodeMessageBuffer msg;
            bolt.Put bucket bucketKey msgBuf
          else Ok bucket
      | KStruct =>
          if assignableToTime propValue then
            t ← assertTime propValue;
            bolt.Put bucket bucketKey (encodeTimeBuffer t)
          else Ok bucket
      | _ => Ok bucket
      end
  end.

Fixpoint UpdateValue_range (bucket : Bkt) (properties : list (string * gvalue))
  : outcome Bkt :=
  match properties with
  | [] => Ok bucket
  | (propKey, propValue) :: rest =>
      bucket' ← UpdateValue_property bucket propKey propValue;
      UpdateValue_range bucket' rest
  end.

(** The function passed to [db.Update] by [UpdateValue]; [properties] is the
    property map in the order the runtime ranges over it. *)
Definition UpdateValue_tx (typ key : string)
    (properties : list (string * gvalue)) (root : Bkt) : outcome Bkt :=
  match tx_Bucket root typ with
  | None => Ok root
  | Some typeBucket =>
      match bolt.Bucket typeBucket key with
      | None => Ok root
      | Some bucket =>
          if decide (length properties = 0%nat) then Ok root
          else
            bucket' ← UpdateValue_range bucket properties;
            Ok (bolt.store_child root typ (bolt.store_child typeBucket key bucket'))
      end
  end.

(** [properties] is a Go map: the order in which it is ranged over is not
    fixed, and an error or a panic can depend on it.  The update is
    therefore taken with the order of the run as an argument: the map
    listed in that order. *)
Definition UpdateValue (root : Bkt) (typ key : string)
    (properties : list (string * gvalue)) : Bkt * outcome unit :=
  db_Update root (UpdateValue_tx typ key properties).

(** *** LoadValuesAll *)

Fixpoint LoadValuesAll_range (typeBucket : Bkt) (typ : string)
    (keys : list string) (typObject : shape) (values : gmap string object)
  : scanned :=
  match keys with
  | [] => ([], (values, Ok tt))
  | key :: rest =>
      match bolt.Bucket typeBucket key with
      | None =>
          after [LogBucketNotFound key typ]
            (LoadValuesAll_range typeBucket typ rest typObject values)
      | Some bucket =>
          match deserializeObject bucket typObject with
          | Err e => ([], (values, Err e))
          | Panic msg => ([], (values, Panic msg))
          | Ok targetObj =>
              LoadValuesAll_range typeBucket typ rest typObject
                (<[key := targetObj]> values)
          end
      end
  end.

Definition LoadValuesAll (root : Bkt) (typ : string) (typObject : shape)
  : scanned :=
  match tx_Bucket root typ with
  | None => ([], (∅, Ok tt))
  | Some typeBucket =>
      let keys := getKeys typeBucket in
      if decide (length keys = 0%nat) then ([], (∅, Ok tt))
      else LoadValuesAll_range typeBucket typ keys typObject ∅
  end.

End handler.

(** ** Notions used to state the properties *)

(** The type bucket a transaction works on: the one found, or the empty one
    it creates. *)
Definition typeBucketOf (root : Bkt) (typ : string) : Bkt :=
  default ∅ (tx_Bucket root typ).

(** [for id, svc := range idToServices { err = handler.SaveValue(tblService, id, svc) ... }]
    as in the handler's tests: one SaveValue per record, each of which has
    to succeed. *)
Fixpoint saveEach `{Codec} (root : Bkt) (typ : string)
    (records : list (string * object)) : option Bkt :=
  match records with
  | [] => Some root
  | (key, value) :: rest =>
      match SaveValue root typ key value with
      | (root', Ok tt) => saveEach root' typ rest
      | _ => None
      end
  end.

(** The record buckets directly under a type bucket. *)
Definition recordBuckets (typeBucket : Bkt) : Bkt :=
  filter (λ kv, is_Sub kv.2 = true) typeBucket.

(** A type bucket of the data model holds record buckets and nothing else;
    [wellFormed] says so of every type bucket of a store. *)
Definition onlyRecordBuckets (typeBucket : Bkt) : Prop :=
  ∀ key n, typeBucket !! key = Some n → is_Sub n = true.

Definition wellFormed (root : Bkt) : Prop :=
  ∀ typ typeBucket, tx_Bucket root typ = Some typeBucket →
    onlyRecordBuckets typeBucket.

(** The contract of the map writer the frame property of an update rests
    on (§4.4: an update overwrites only that field's entry): a write of a
    string map under [name] leaves every other key of the bucket as it
    was. *)
Definition rawMapConfined `{Codec} : Prop :=
  ∀ (bucket : Bkt) name values bucket',
    encodeRawMap bucket name values = Ok bucket' →
    ∀ k, k ≠ name → bucket' !! k = bucket !! k.

(** When [b.Put(key, value)] succeeds. *)
Definition canPut (b : Bkt) (key : string) (value : bytes) : Prop :=
  String.length key ≠ 0%nat
  ∧ ¬ bolt.MaxKeySize < Z.of_nat (String.length key)
  ∧ ¬ bolt.MaxValueSize < Z.of_nat (length value)
  ∧ ∀ child, b !! key ≠ Some (Sub child).

(** ** Notions used to state the further properties *)

Section further_notions.
Context `{Codec}.

(** The tagged buffer [UpdateValue] puts for a property of a scalar or
    message kind. *)
Definition encodeProperty (propValue : gvalue) : option bytes :=
  match propValue with
  | VString s => Some (encodeStringBuffer s)
  | VBool b => Some (encodeBoolBuffer b)
  | VInt w n => Some (encodeIntBuffer n (numberKindToType (KInt w)))
  | VUint w n => Some (encodeUintBuffer n (numberKindToType (KUint w)))
  | VTime t => Some (encodeTimeBuffer t)
  | VMsg m => match encodeMessageBuffer m with Ok buf => Some buf | _ => None end
  | _ => None
  end.

(** The stores that the writes of the handler build from the empty file. *)
Inductive reachable : Bkt → Prop :=
  | reachable_empty : reachable ∅
  | reachable_save root typ key value :
      reachable root → reachable (SaveValue root typ key value).1
  | reachable_update root typ key properties :
      reachable root → reachable (UpdateValue root typ key properties).1
  | reachable_delete root typ keys :
      reachable root → reachable (DeleteValues root typ keys).1.

End further_notions.

(** The values the processor was called with, in the order of the calls. *)
Definition processCalls (t : trace) : list gvalue :=
  omap (λ e, match e with CallProcess fieldObj => Some fieldObj | _ => None end) t.

(** The string a key of a nested bucket is read as: the bytes of its value;
    a bucket nested below is visited with a nil value, the empty string. *)
Definition rawString (n : node) : string :=
  match n with
  | Leaf v => String.string_of_list_byte v
  | Sub _ => ""
  end.

(** The values of the plain scalar kinds. *)
Definition plain (v : gvalue) : Prop :=
  match v with
  | VString _ | VBool _ | VInt _ _ | VUint _ _ | VTime _ => True
  | _ => False
  end.

(** ** The namespace store *)

(** [model.Namespace] of package common/model, which is not among the
    sources: the fields are those that the composite literals and the
    selectors of namespace.go and of its tests name, in the order of the
    literal of [InitData]. *)
Module model.

Record Namespace := {
  Name : string;
  Comment : string;
  Token : string;
  Owner : string;
  Valid : bool;
  CreateTime : time;
  ModifyTime : time;
}.

End model.

(** What a method of [namespaceStore] returns besides its values: nil, an
    error it made itself with [errors.New] or [fmt.Errorf], an error of the
    handler passed on, or a panic. *)
Inductive reply (A : Type) :=
  | Reply (a : A)
  | OwnError (msg : string)
  | HandlerError (e : error)
  | Panicked (msg : string).
Arguments Reply {A} a.
Arguments OwnError {A} msg.
Arguments HandlerError {A} e.
Arguments Panicked {A} msg.

Definition ofOutcome {A} (r : outcome A) : reply A :=
  match r with
  | Ok a => Reply a
  | Err e => HandlerError e
  | Panic msg => Panicked msg
  end.

(** Go's [int] on a 64-bit platform: the result of an arithmetic operation
    wraps around. *)
Definition wrap64 (z : Z) : Z := (z + 2 ^ 63) mod 2 ^ 64 - 2 ^ 63.

Section namespaceStore.
Context `{Codec}.

Definition tblNameNamespace : string := "namespace".
Definition defaultNamespace : string := "default".
Definition polarisNamespace : string := "Polaris".

(** [namespaceToToken[namespace]] and [namespaceToComment[namespace]]: a
    name that is not in the map reads as the empty string. *)
Definition namespaceToToken (namespace : string) : string :=
  if decide (namespace = defaultNamespace) then "e2e473081d3d4306b52264e49f7ce227"
  else if decide (namespace = polarisNamespace) then "2d1bfe5d12e04d54b8ee69e62494c7fd"
  else "".

Definition namespaceToComment (namespace : string) : string :=
  if decide (namespace = defaultNamespace) then "Default Environment"
  else if decide (namespace = polarisNamespace) then "Polaris-server"
  else "".

(** A [*model.Namespace] as the handler sees it through [interface{}], and
    the prototype [&model.Namespace{}]. *)
Definition namespaceObject (namespace : model.Namespace) : object :=
  [("Name", VString (model.Name namespace));
   ("Comment", VString (model.Comment namespace));
   ("Token", VString (model.Token namespace));
   ("Owner", VString (model.Owner namespace));
   ("Valid", VBool (model.Valid namespace));
   ("CreateTime", VTime (model.CreateTime namespace));
   ("ModifyTime", VTime (model.ModifyTime namespace))].

Definition namespaceShape : shape :=
  [("Name", TString); ("Comment", TString); ("Token", TString);
   ("Owner", TString); ("Valid", TBool); ("CreateTime", TTime);
   ("ModifyTime", TTime)].

(** [AddNamespace] sets [namespace.Valid] through the pointer it is given:
    the namespace as the caller finds it afterwards is part of the result. *)
Definition AddNamespace (root : Bkt) (namespace : model.Namespace)
  : model.Namespace * (Bkt * reply unit) :=
  if decide (model.Name namespace = "" ∨ model.Owner namespace = ""
             ∨ model.Token namespace = "")
  then (namespace, (root, OwnError "store add namespace some param are empty"))
  else
    let namespace :=
      {| model.Name := model.Name namespace;
         model.Comment := model.Comment namespace;
         model.Token := model.Token namespace;
         model.Owner := model.Owner namespace;
         model.Valid := true;
         model.CreateTime := model.CreateTime namespace;
         model.ModifyTime := model.ModifyTime namespace |} in
    let '(root', r) :=
      SaveValue root tblNameNamespace (model.Name namespace)
        (namespaceObject namespace) in
    (namespace, (root', ofOutcome r)).

(** The methods that update build a property map and hand it to
    [UpdateValue], which ranges over it.  [range] is the order in which the
    runtime ranges over a map; [now] is the reading of [time.Now()]. *)
Definition UpdateNamespace (range : gmap string gvalue → list (string * gvalue))
    (now : time) (root : Bkt) (namespace : model.Namespace) : Bkt * reply unit :=
  if decide (model.Name namespace = "" ∨ model.Owner namespace = "")
  then (root, OwnError "store update namespace some param are empty")
  else
    let properties : gmap string gvalue :=
      <["ModifyTime" := VTime now]>
        (<["Comment" := VString (model.Comment namespace)]>
           (<["Owner" := VString (model.Owner namespace)]> ∅)) in
    let '(root', r) :=
      UpdateValue root tblNameNamespace (model.Name namespace) (range properties) in
    (root', ofOutcome r).

Definition UpdateNamespaceToken (range : gmap string gvalue → list (string * gvalue))
    (now : time) (root : Bkt) (name token : string) : Bkt * reply unit :=
  if decide (name = "" ∨ token = "")
  then (root, OwnError "update Namespace Token missing some params")
  else
    let properties : gmap string gvalue :=
      <["ModifyTime" := VTime now]> (<["Token" := VString token]> ∅) in
    let '(root', r) := UpdateValue root tblNameNamespace name (range properties) in
    (root', ofOutcome r).

(** [GetNamespace]: the namespace loaded, nil when the store has none of
    that name.  The value loaded is the [*model.Namespace] that
    [deserializeObject] built from the prototype. *)
Definition GetNamespace (root : Bkt) (name : string) : reply (option object) :=
  let '(values, err) := LoadValues root tblNameNamespace [name] namespaceShape in
  match err with
  | Ok _ => Reply (values !! name)
  | Err e => HandlerError e
  | Panic msg => Panicked msg
  end.

(** [InitData]: [now namespace] is the pair of readings of [time.Now()] taken
    for [CreateTime] and [ModifyTime] when [namespace] is created. *)
Fixpoint InitData_range (now : string → time * time) (root : Bkt)
    (namespaces : list string) : Bkt * reply unit :=
  match namespaces with
  | [] => (root, Reply tt)
  | namespace :: rest =>
      match GetNamespace root namespace with
      | Reply (Some _) => InitData_range now root rest
      | Reply None =>
          match AddNamespace root
                  {| model.Name := namespace;
                     model.Comment := namespaceToComment namespace;
                     model.Token := namespaceToToken namespace;
                     model.Owner := "polaris";
                     model.Valid := true;
                     model.CreateTime := (now namespace).1;
                     model.ModifyTime := (now namespace).2 |} with
          | (_, (root', Reply _)) => InitData_range now root' rest
          | (_, (root', OwnError msg)) => (root', OwnError msg)
          | (_, (root', HandlerError e)) => (root', HandlerError e)
          | (_, (root', Panicked msg)) => (root', Panicked msg)
          end
      | OwnError msg => (root, OwnError msg)
      | HandlerError e => (root, HandlerError e)
      | Panicked msg => (root, Panicked msg)
      end
  end.

Definition InitData (now : string → time * time) (root : Bkt) : Bkt * reply unit :=
  InitData_range now root [defaultNamespace; polarisNamespace].

(** [GetNamespaces].  [arrange] stands for [toNamespaces], which ranges over
    the loaded map, followed by [sort.Sort(sort.Reverse(namespaces))]: the
    loaded namespaces in some order.  The slice expression panics unless
    [0 <= startIdx <= endIdx]; [endIdx] is at most the length, which is the
    capacity [toNamespaces] allocates.  The filter argument is not used.
    The result is the page (nil or a slice), the count and the error. *)
Definition GetNamespaces (arrange : gmap string object → list object)
    (root : Bkt) (filter : gmap string (list string)) (offset limit : Z)
  : reply (option (list object) * Z) :=
  match LoadValuesAll root tblNameNamespace namespaceShape with
  | (_, (_, Err e)) => HandlerError e
  | (_, (_, Panic msg)) => Panicked msg
  | (_, (values, Ok _)) =>
      let namespaces := arrange values in
      let len := Z.of_nat (length namespaces) in
      let startIdx := wrap64 (offset * limit) in
      if decide (len ≤ startIdx) then Reply (None, 0)
      else
        let endIdx := wrap64 (startIdx + limit) in
        let endIdx := if decide (len < endIdx) then len else endIdx in
        if decide (0 ≤ startIdx ∧ startIdx ≤ endIdx)
        then Reply (Some (take (Z.to_nat (endIdx - startIdx))
                            (drop (Z.to_nat startIdx) namespaces)), 0)
        else Panicked "slice bounds out of range"
  end.

End namespaceStore.

(** The namespace as [AddNamespace] stores it and leaves it to the caller. *)
Definition validated (namespace : model.Namespace) : model.Namespace :=
  {| model.Name := model.Name namespace;
     model.Comment := model.Comment namespace;
     model.Token := model.Token namespace;
     model.Owner := model.Owner namespace;
     model.Valid := true;
     model.CreateTime := model.CreateTime namespace;
     model.ModifyTime := model.ModifyTime namespace |}.

(** ** A reference codec *)

(** The properties below hold for every codec.  To run the handler on
    concrete stores one codec is fixed here. *)
Module refcodec.

(** Modelled from the spec: codec.go (type tags, tagged buffers, field
    mapper, record codec) is not among the sources.  A tagged buffer is one
    discriminant byte followed by the payload of the kind (§4.1); the tag
    numbers and the payload layouts are this model's choice, the spec fixes
    neither. *)
Definition tagOfWidth (signed : bool) (w : width) : byte :=
  match signed, w with
  | true, W0 => x05 | true, W8 => x06 | true, W16 => x07
  | true, W32 => x08 | true, W64 => x09
  | false, W0 => x0a | false, W8 => x0b | false, W16 => x0c
  | false, W32 => x0d | false, W64 => x0e
  end.

(** Modelled from the spec: the width a number tag stands for (§4.1: a
    round trip keeps the bit width). *)
Definition widthOfTag (typ : byte) : width :=
  if decide (typ ∈ [x06; x0b]) then W8
  else if decide (typ ∈ [x07; x0c]) then W16
  else if decide (typ ∈ [x08; x0d]) then W32
  else if decide (typ ∈ [x09; x0e]) then W64
  else W0.

(** Modelled from the spec: the payload of the integer kinds and of a
    timestamp, eight bytes, least significant first, of the number modulo
    [2^64]. *)
Definition byteOfZ (z : Z) : byte :=
  default x00 (Byte.of_N (Z.to_N (z mod 256))).

Definition ZOfByte (b : byte) : Z := Z.of_N (Byte.to_N b).

Definition encodeWord (n : Z) : bytes :=
  (λ i, byteOfZ (n / 256 ^ i)) <$> [0; 1; 2; 3; 4; 5; 6; 7].

Definition decodeWord (payload : bytes) : Z :=
  foldr (λ b acc, ZOfByte b + 256 * acc) 0 payload.

Definition decodeSigned (payload : bytes) : Z :=
  let u := decodeWord payload in
  if decide (u < 2 ^ 63) then u else u - 2 ^ 64.

(** Modelled from the spec: a string map is stored as a nested bucket named
    by the mapped key, one raw entry per map entry; a map with no entry
    produces no nested bucket (§4.3), and a write replaces that field's
    entry only (§4.4, Update). *)
Definition writeRawMap (parent : Bkt) (name : string)
    (values : option (gmap string string)) : outcome Bkt :=
  parent ← match bolt.Bucket parent name with
           | Some _ => bolt.DeleteBucket parent name
           | None => Ok parent
           end;
  let entries := map_to_list (default ∅ values) in
  if decide (length entries = 0%nat) then Ok parent
  else
    parent ← bolt.CreateBucket parent name;
    child ← foldr (λ kv acc, b ← acc;
                     bolt.Put b kv.1 (String.list_byte_of_string kv.2))
                  (Ok ∅) entries;
    Ok (bolt.store_child parent name child).

(** Modelled from the spec: serialization of one field (§4.3): a scalar or a
    message becomes one flat tagged entry, a string map a nested bucket;
    a value of no supported kind yields nothing. *)
Definition serializeField (st : outcome (Bkt * gmap string bytes))
    (fld : string * gvalue) : outcome (Bkt * gmap string bytes) :=
  '(parent, buffers) ← st;
  let name := fld.1 in
  match fld.2 with
  | VString s =>
      Ok (parent, <[name := x01 :: String.list_byte_of_string s]> buffers)
  | VBool b => Ok (parent, <[name := [x02; if b then x01 else x00]]> buffers)
  | VTime t => Ok (parent, <[name := x03 :: encodeWord t]> buffers)
  | VMsg m => Ok (parent, <[name := x04 :: msg_content m]> buffers)
  | VInt w n => Ok (parent, <[name := tagOfWidth true w :: encodeWord n]> buffers)
  | VUint w n => Ok (parent, <[name := tagOfWidth false w :: encodeWord n]> buffers)
  | VStrMap m => parent ← writeRawMap parent name m; Ok (parent, buffers)
  | VNil | VOther _ => Ok (parent, buffers)
  end.

(** Modelled from the spec: the decoders dispatch on the discriminant byte
    alone (§4.1). *)
Definition decodeTagged (msgName : string) (buf : bytes) : outcome gvalue :=
  match buf with
  | [] => Err (ErrCodec "empty buffer")
  | typ :: payload =>
      if decide (typ = x01) then Ok (VString (String.string_of_list_byte payload))
      else if decide (typ = x02) then Ok (VBool (bool_decide (payload ≠ [x00])))
      else if decide (typ = x03) then Ok (VTime (decodeSigned payload))
      else if decide (typ = x04) then Ok (VMsg (Msg msgName payload))
      else if decide (typ ∈ [x05; x06; x07; x08; x09])
      then Ok (VInt (widthOfTag typ) (decodeSigned payload))
      else if decide (typ ∈ [x0a; x0b; x0c; x0d; x0e])
      then Ok (VUint (widthOfTag typ) (decodeWord payload))
      else Err (ErrCodec "unknown tag")
  end.

(** Modelled from the spec: the zero value a field keeps when the bucket
    holds nothing for it (§4.3). *)
Definition zeroValue (t : ftype) : gvalue :=
  match t with
  | TString => VString ""
  | TBool => VBool false
  | TInt w => VInt w 0
  | TUint w => VUint w 0
  | TStrMap => VStrMap None
  | TTime => VTime 0
  | TMsgPtr _ => VNil
  | TOtherType k => VOther k
  end.

(** Modelled from the spec: the message type a declared field asks for
    (§4.1: decoding a message takes its type from the destination field). *)
Definition msgNameOf (t : ftype) : string :=
  match t with TMsgPtr name => name | _ => "" end.

(** Modelled from the spec: deserialization of one declared field (§4.3): a
    flat entry is tag-decoded; without one, a nested bucket of that key is
    read as a string map; with neither the field keeps its zero value. *)
Definition deserializeField (bucket : Bkt) (fld : string * ftype)
  : outcome (string * gvalue) :=
  match bolt.Get bucket fld.1 with
  | Some buf => v ← decodeTagged (msgNameOf fld.2) buf; Ok (fld.1, v)
  | None =>
      match bolt.Bucket bucket fld.1 with
      | Some sub =>
          Ok (fld.1, VStrMap (Some (list_to_map
            ((λ kv, (kv.1, String.string_of_list_byte (default [] kv.2)))
               <$> bolt.ForEach sub))))
      | None => Ok (fld.1, zeroValue fld.2)
      end
  end.

(** Modelled from the spec: a decoder of one kind returns the decoded
    value, or the zero value of the kind and an error. *)
Definition valueOf (r : outcome gvalue) (zero : gvalue) : gvalue * option error :=
  match r with
  | Ok v => (v, None)
  | Err e => (zero, Some e)
  | Panic msg => (zero, Some (ErrCodec msg))
  end.

(** Modelled from the spec: the codec of §4.1 to §4.3, with the identity as
    field mapper (§4.2). *)
Definition codec : Codec := {|
  typeString := x01;
  typeBool := x02;
  typeTime := x03;
  typeProtobuf := x04;
  typeInt := x05;
  typeInt8 := x06;
  typeInt16 := x07;
  typeInt32 := x08;
  typeInt64 := x09;
  typeUint := x0a;
  typeUint8 := x0b;
  typeUint16 := x0c;
  typeUint32 := x0d;
  typeUint64 := x0e;
  numberKindToType := λ kind,
    match kind with
    | KInt w => tagOfWidth true w
    | KUint w => tagOfWidth false w
    | _ => x00
    end;
  toBucketField := λ field, field;
  encodeStringBuffer := λ s, x01 :: String.list_byte_of_string s;
  encodeBoolBuffer := λ b, [x02; if b then x01 else x00];
  encodeIntBuffer := λ n typ, typ :: encodeWord n;
  encodeUintBuffer := λ n typ, typ :: encodeWord n;
  encodeTimeBuffer := λ t, x03 :: encodeWord t;
  encodeMessageBuffer := λ m, Ok (x04 :: msg_content m);
  encodeRawMap := writeRawMap;
  decodeStringBuffer := λ _ buf, valueOf (decodeTagged "" buf) (VString "");
  decodeBoolBuffer := λ _ buf, valueOf (decodeTagged "" buf) (VBool false);
  decodeTimeBuffer := λ _ buf, valueOf (decodeTagged "" buf) (VTime 0);
  decodeIntBuffer := λ _ buf _, valueOf (decodeTagged "" buf) (VInt W64 0);
  decodeUintBuffer := λ _ buf _, valueOf (decodeTagged "" buf) (VUint W64 0);
  decodeMessageBuffer := λ msg _ buf, decodeTagged (msg_type msg) buf;
  serializeObject := λ parent value, foldl serializeField (Ok (parent, ∅)) value;
  deserializeObject := λ bucket typObject, mapM (deserializeField bucket) typObject;
|}.

End refcodec.

(** ** A small store *)

Module demo.

#[local] Existing Instance refcodec.codec.

(** The service records of the handler's tests, cut down to three fields. *)
Definition Service : shape :=
  [("ID", TString); ("Name", TString); ("Meta", TStrMap)].

Definition svcA : object :=
  [("ID", VString "a"); ("Name", VString "X");
   ("Meta", VStrMap (Some {["k1" := "v1"]}))].

Definition svcB : object :=
  [("ID", VString "b"); ("Name", VString "Z"); ("Meta", VStrMap None)].

Definition store1 : Bkt := (SaveValue ∅ "svc" "a" svcA).1.
Definition store2 : Bkt := (SaveValue store1 "svc" "b" svcB).1.

(** [func(m map[string]interface{}) bool { _, ok := m["Meta"]; return ok }] *)
Definition hasMeta (m : gmap string gvalue) : bool :=
  match m !! "Meta" with Some _ => true | None => false end.

(** A record written with a field the [Service] prototype does not
    declare. *)
Definition svcC : object :=
  [("ID", VString "c"); ("Owner", VString "user1")].

Definition store3 : Bkt := (SaveValue ∅ "svc" "c" svcC).1.

Definition bucketC : Bkt := default ∅ (getBucket store3 "svc" "c").

(** A record bucket holding a message and a value with a tag no reader
    knows. *)
Definition bucketD : Bkt :=
  {[ "Proto" := Leaf [x04; x0a]; "Future" := Leaf [xff; x01] ]}.

(** A namespace as a caller of [AddNamespace] builds it, and the store
    that holds it. *)
Definition nsA : model.Namespace :=
  {| model.Name := "ns1"; model.Comment := "first"; model.Token := "t1";
     model.Owner := "user1"; model.Valid := false;
     model.CreateTime := 100; model.ModifyTime := 100 |}.

Definition storeN : Bkt := (AddNamespace ∅ nsA).2.1.

(** One order in which a map can be ranged over, and one arrangement of the
    loaded namespaces. *)
Definition rangeByKey (m : gmap string gvalue) : list (string * gvalue) :=
  map_to_list m.

Definition arrangeByKey (m : gmap string object) : list object :=
  (map_to_list m).*2.

Definition clock (namespace : string) : time * time := (200, 201).

End demo.

(** ** Facts about the engine *)

Section bolt_facts.

Lemma ForEach_keys_perm (b : Bkt) :
  fst <$> bolt.ForEach b ≡ₚ (map_to_list b).*1.
Proof.
  unfold bolt.ForEach.
  assert (∀ l : list string, fst <$> ((λ k, (k, bolt.Get b k)) <$> l) = l) as E.
  { induction l as [|k l IH]; [done|]. rewrite !fmap_cons. simpl. by f_equal. }
  rewrite E. apply merge_sort_Permutation.
Qed.

Lemma length_ForEach (b : Bkt) : length (bolt.ForEach b) = size b.
Proof.
  rewrite <- (length_fmap fst), ForEach_keys_perm, length_fmap.
  apply length_map_to_list.
Qed.

Lemma elem_of_ForEach_keys (b : Bkt) k :
  k ∈ fst <$> bolt.ForEach b ↔ is_Some (b !! k).
Proof.
  rewrite ForEach_keys_perm. rewrite list_elem_of_fmap. split.
  - intros [[k' n] [-> Hin]]. apply elem_of_map_to_list in Hin. by eexists.
  - intros [n Hn]. exists (k, n). split; [done|]. by apply elem_of_map_to_list.
Qed.

Lemma foldl_count {A} (l : list A) (n : Z) :
  foldl (λ count _, count + 1) n l = n + Z.of_nat (length l).
Proof.
  revert n. induction l as [|x l IH]; intros n; simpl; [lia|].
  rewrite IH. lia.
Qed.

End bolt_facts.

(** ** Properties of the handler *)

Section properties.
Context `{Codec}.

(** *** Update of a record that is not there *)

Lemma UpdateValue_tx_missing (root : Bkt) typ key properties :
  getBucket root typ key = None →
  UpdateValue_tx typ key properties root = Ok root.
Proof.
  unfold getBucket, UpdateValue_tx.
  destruct (tx_Bucket root typ) as [typeBucket|]; [|done]. by intros ->.
Qed.

(** C4: when the type bucket or the record bucket for [key] does not exist,
    UpdateValue returns no error and the store is what it was, whatever the
    property map holds: the update is a no-op, not an upsert. *)
Theorem UpdateValue_missing_is_noop (root : Bkt) typ key properties :
  (tx_Bucket root typ = None ∨
   ∃ typeBucket, tx_Bucket root typ = Some typeBucket
                 ∧ bolt.Bucket typeBucket key = None) →
  UpdateValue root typ key properties = (root, Ok tt).
Proof.
  intros Hmiss. unfold UpdateValue, db_Update.
  rewrite UpdateValue_tx_missing; [done|]. unfold getBucket.
  by destruct Hmiss as [-> | (typeBucket & -> & ->)].
Qed.

(** *** Single-field read *)

Lemma getFieldObject_ext (bucket1 bucket2 : Bkt) typObject field :
  bucket1 !! toBucketField field = bucket2 !! toBucketField field →
  getFieldObject bucket1 typObject field = getFieldObject bucket2 typObject field.
Proof.
  intros E. unfold getFieldObject, reflectMapMsg, bolt.Get, bolt.Bucket.
  by rewrite E.
Qed.

Lemma getFieldObject_no_entry (bucket : Bkt) typObject field :
  bucket !! toBucketField field = None →
  getFieldObject bucket typObject field = ([], Ok (VStrMap None)).
Proof.
  intros E. unfold getFieldObject, reflectMapMsg, bolt.Get, bolt.Bucket.
  by rewrite E.
Qed.

Lemma not_recognized typByte :
  typByte ∉ recognizedTags →
  typByte ≠ typeString ∧ typByte ≠ typeBool ∧ typByte ≠ typeTime
  ∧ typByte ≠ typeProtobuf
  ∧ (typByte ∉ [typeInt; typeInt8; typeInt16; typeInt32; typeInt64])
  ∧ (typByte ∉ [typeUint; typeUint8; typeUint16; typeUint32; typeUint64]).
Proof.
  unfold recognizedTags. rewrite !not_elem_of_cons. tauto.
Qed.

(** C7: a stored value whose first byte is none of the recognised type
    tags is a soft condition for the single-field read: it logs, returns no
    value (the nil interface) and no error, and the loop that builds the
    filter's map goes on with the next field. *)
Theorem getFieldObject_unrecognized_tag (bucket : Bkt) typObject field typByte payload :
  bolt.Get bucket (toBucketField field) = Some (typByte :: payload) →
  typByte ∉ recognizedTags →
  getFieldObject bucket typObject field
    = ([LogUnrecognizedField field typByte], Ok VNil)
  ∧ ∀ rest fieldValues,
      matchObject_range bucket (field :: rest) typObject fieldValues
      = after [LogUnrecognizedField field typByte]
          (matchObject_range bucket rest typObject fieldValues).
Proof.
  intros Hget Htag.
  assert (getFieldObject bucket typObject field
          = ([LogUnrecognizedField field typByte], Ok VNil)) as E.
  { unfold getFieldObject. rewrite Hget. simpl.
    destruct (not_recognized _ Htag) as (? & ? & ? & ? & ? & ?).
    by rewrite !decide_False by done. }
  split; [done|]. intros rest fieldValues. simpl. rewrite E. simpl.
  by destruct (matchObject_range bucket rest typObject fieldValues).
Qed.

(** *** The prototype is consulted for message fields only *)

(** The read of a nested bucket as a string map has no error to return. *)
Lemma reflectMapMsg_no_error (bucket : Bkt) bucketField :
  ∃ m, reflectMapMsg bucket bucketField = Ok m.
Proof.
  unfold reflectMapMsg. destruct (bolt.Bucket bucket bucketField); by eexists.
Qed.

(** Every case of the switch but that of the message tag, and the read of
    a field with no flat entry, returns a value and a nil error. *)
Lemma getFieldObject_other_tag_no_error (bucket : Bkt) typObject field :
  (∀ payload, bolt.Get bucket (toBucketField field)
              = Some (typeProtobuf :: payload) → False) →
  ∃ t value, getFieldObject bucket typObject field = (t, Ok value).
Proof.
  intros Hother. unfold getFieldObject.
  assert (∃ t value,
            (m ← lift (reflectMapMsg bucket (toBucketField field));
             mret (VStrMap m) : traced gvalue) = (t, Ok value)) as Hmap.
  { destruct (reflectMapMsg_no_error bucket (toBucketField field)) as [m ->].
    by eexists _, _. }
  destruct (bolt.Get bucket (toBucketField field))
    as [[|typByte payload]|] eqn:Hget; [done| |done].
  cbn [default from_option id].
  repeat (case_decide; [subst; first [by destruct (Hother payload)
                                     | by eexists _, _] |]).
  by eexists _, _.
Qed.

(** C6, amended: when the stored value carries the protobuf-message tag
    and the requested field is not found in the prototype shape, or its
    declared type does not implement the message contract, the single-field
    read returns a descriptive error.  For a stored value with any other
    tag, and when there is no flat entry, the prototype is not consulted:
    the read is the same for every prototype, and it returns a value and no
    error, whether the prototype has the field or not. *)
Theorem getFieldObject_shape_mismatch (bucket : Bkt) typObject field payload :
  typeProtobuf ∉ [typeString; typeBool; typeTime] →
  bolt.Get bucket (toBucketField field) = Some (typeProtobuf :: payload) →
  (FieldByName typObject field = None →
   getFieldObject bucket typObject field = ([], Err (ErrFieldNotFound field)))
  ∧ (∀ t, FieldByName typObject field = Some t →
          typeImplementsMessage t = false →
          getFieldObject bucket typObject field
          = ([], Err (ErrFieldTypeNotMatch field)))
  ∧ (∀ bucket' typObject',
        (∀ payload', bolt.Get bucket' (toBucketField field)
                     ≠ Some (typeProtobuf :: payload')) →
        getFieldObject bucket' typObject' field
        = getFieldObject bucket' typObject field
        ∧ ∃ t value, getFieldObject bucket' typObject' field = (t, Ok value)).
Proof.
  intros Htags Hget. rewrite !not_elem_of_cons in Htags.
  destruct Htags as (? & ? & ? & _).
  split; [|split].
  - intros Hf. unfold getFieldObject, reflectProtoMsg. rewrite Hget, Hf. simpl.
    rewrite !decide_False by done. by rewrite decide_True by done.
  - intros t Hf Ht. unfold getFieldObject, reflectProtoMsg. rewrite Hget, Hf. simpl.
    rewrite !decide_False by done. rewrite decide_True by done.
    by destruct t.
  - intros bucket' typObject' Hother. split.
    + unfold getFieldObject.
      destruct (bolt.Get bucket' (toBucketField field))
        as [[|typByte payload']|]; [done| |done]. simpl.
      destruct (decide (typByte = typeProtobuf)) as [->|]; [|done].
      by destruct (Hother payload').
    + apply getFieldObject_other_tag_no_error. intros payload' Hget'.
      by destruct (Hother payload').
Qed.

(** *** A scan without a filter *)

Lemma matchObject_no_filter (bucket : Bkt) fields typObject filter :
  fields = [] ∨ filter = None →
  matchObject bucket fields typObject filter = ([], Ok true).
Proof.
  intros [-> | ->]; unfold matchObject; [done|]. by case_decide.
Qed.

Lemma loadValuesByFilter_range_no_filter (typeBucket : Bkt) typ keys fields
    typObject filter values :
  fields = [] ∨ filter = None →
  loadValuesByFilter_range typeBucket typ keys fields typObject filter values
  = LoadValuesAll_range typeBucket typ keys typObject values.
Proof.
  intros Hno. revert values.
  induction keys as [|key rest IH]; intros values; simpl; [done|].
  destruct (bolt.Bucket typeBucket key) as [bucket|]; [|by rewrite IH].
  rewrite matchObject_no_filter by done.
  destruct (deserializeObject bucket typObject) as [obj| |]; [|done..].
  rewrite IH. unfold after. simpl.
  by destruct (LoadValuesAll_range typeBucket typ rest typObject _).
Qed.

Lemma LoadValuesAll_range_no_call (typeBucket : Bkt) typ keys typObject values fv :
  CallFilter fv ∉ (LoadValuesAll_range typeBucket typ keys typObject values).1.
Proof.
  revert values. induction keys as [|key rest IH]; intros values; simpl.
  - apply not_elem_of_nil.
  - destruct (bolt.Bucket typeBucket key) as [bucket|].
    + destruct (deserializeObject bucket typObject); simpl;
        [apply IH | apply not_elem_of_nil..].
    + simpl. rewrite not_elem_of_cons. split; [done | apply IH].
Qed.

End properties.

(** *** Load by keys *)

Section load_by_keys.
Context `{Codec}.

Lemma loadValues_frame (root : Bkt) typ keys typObject values values' r key :
  loadValues root typ keys typObject values = (values', r) →
  key ∉ keys ∨ getBucket root typ key = None →
  values' !! key = values !! key.
Proof.
  revert values. induction keys as [|k rest IH]; intros values Hrun Hkey; simpl in Hrun.
  - by inversion Hrun.
  - assert (key ∉ rest ∨ getBucket root typ key = None) as Hrest.
    { destruct Hkey as [Hkey|]; [|by right]. left. by apply not_elem_of_cons in Hkey as [_ ?]. }
    destruct (getBucket root typ k) as [bucket|] eqn:Hb; [|by eapply IH].
    destruct (deserializeObject bucket typObject) as [toObj|e|msg].
    + rewrite (IH _ Hrun Hrest). apply lookup_insert_ne. intros ->.
      destruct Hkey as [Hkey|Hkey]; [|congruence].
      apply Hkey. left.
    + by inversion Hrun.
    + by inversion Hrun.
Qed.

Lemma loadValues_present (root : Bkt) typ keys typObject values values' key bucket :
  loadValues root typ keys typObject values = (values', Ok tt) →
  key ∈ keys →
  getBucket root typ key = Some bucket →
  ∃ toObj, deserializeObject bucket typObject = Ok toObj
           ∧ values' !! key = Some toObj.
Proof.
  revert values. induction keys as [|k rest IH]; intros values Hrun Hin Hb; simpl in Hrun.
  - by apply elem_of_nil in Hin.
  - destruct (decide (key ∈ rest)) as [Hrest|Hrest].
    + destruct (getBucket root typ k) as [b|]; [|by eapply IH].
      destruct (deserializeObject b typObject) as [toObj|e|msg]; [by eapply IH|done..].
    + apply elem_of_cons in Hin as [->|?]; [|done].
      rewrite Hb in Hrun.
      destruct (deserializeObject bucket typObject) as [toObj|e|msg]; [|done..].
      exists toObj. split; [done|].
      rewrite (loadValues_frame _ _ _ _ _ _ _ k Hrun) by (by left).
      apply lookup_insert_eq.
Qed.

Lemma loadValues_no_error (root : Bkt) typ keys typObject values :
  (∀ key bucket, key ∈ keys → getBucket root typ key = Some bucket →
     ∃ toObj, deserializeObject bucket typObject = Ok toObj) →
  (loadValues root typ keys typObject values).2 = Ok tt.
Proof.
  revert values. induction keys as [|k rest IH]; intros values Hok; simpl; [done|].
  assert (∀ key bucket, key ∈ rest → getBucket root typ key = Some bucket →
            ∃ toObj, deserializeObject bucket typObject = Ok toObj) as Hrest.
  { intros key bucket Hin. apply Hok. by right. }
  destruct (getBucket root typ k) as [bucket|] eqn:Hb; [|by apply IH].
  destruct (Hok k bucket) as [toObj ->]; [by left|done|]. by apply IH.
Qed.

(** C2: LoadValues leaves out of the returned map every key whose record
    bucket is absent and raises no error for it; every key whose bucket is
    present is in the map with its deserialized record.  An error can only
    come from deserializing a bucket that is there.  With one present and
    one absent key the map holds the present key only. *)
Theorem LoadValues_omits_absent_keys (root : Bkt) typ keys typObject values r :
  LoadValues root typ keys typObject = (values, r) →
  (∀ key, getBucket root typ key = None → values !! key = None)
  ∧ ((∀ key bucket, key ∈ keys → getBucket root typ key = Some bucket →
        ∃ toObj, deserializeObject bucket typObject = Ok toObj) →
     r = Ok tt)
  ∧ (r = Ok tt →
     ∀ key bucket, key ∈ keys → getBucket root typ key = Some bucket →
       ∃ toObj, deserializeObject bucket typObject = Ok toObj
                ∧ values !! key = Some toObj)
  ∧ (∀ present absent bucket toObj,
       keys = [present; absent] ∨ keys = [absent; present] →
       getBucket root typ present = Some bucket →
       deserializeObject bucket typObject = Ok toObj →
       getBucket root typ absent = None →
       values = {[present := toObj]} ∧ r = Ok tt).
Proof.
  unfold LoadValues. intros Hrun. split; [|split; [|split]].
  - intros key Hnone. case_decide; [by inversion Hrun|].
    rewrite (loadValues_frame _ _ _ _ _ _ _ key Hrun) by (by right).
    apply lookup_empty.
  - intros Hok. case_decide; [by inversion Hrun|].
    pose proof (loadValues_no_error root typ keys typObject ∅ Hok) as E.
    by rewrite Hrun in E.
  - intros -> key bucket Hin Hb. case_decide as Hlen.
    + destruct keys; [by apply elem_of_nil in Hin | done].
    + by eapply loadValues_present.
  - intros present absent bucket toObj Hkeys Hb Hde Hnone.
    destruct Hkeys as [-> | ->]; simpl in Hrun;
      rewrite Hb, Hnone, Hde in Hrun; by inversion Hrun.
Qed.

End load_by_keys.

(** *** Save *)

Section save.
Context `{Codec}.

Lemma Put_ok (b : Bkt) key value b' :
  bolt.Put b key value = Ok b' → b' = <[key := Leaf value]> b.
Proof.
  unfold bolt.Put. repeat case_decide; try done.
  destruct (b !! key) as [[v|c]|]; naive_solver.
Qed.

Lemma putBuffers_ok (bucket : Bkt) buffers bucket' :
  NoDup buffers.*1 →
  putBuffers bucket buffers = Ok bucket' →
  bucket' = list_to_map (prod_map id Leaf <$> buffers) ∪ bucket.
Proof.
  revert bucket. induction buffers as [|[k v] rest IH]; intros bucket Hnd Hrun;
    simpl in *.
  - inversion Hrun. by rewrite (left_id_L ∅ (∪)).
  - apply NoDup_cons in Hnd as [Hk Hnd].
    destruct (bolt.Put bucket k v) as [b1|e|msg] eqn:Hput; [|done..].
    apply Put_ok in Hput as ->. simpl in Hrun.
    rewrite (IH _ Hnd Hrun). rewrite <- insert_union_l.
    rewrite insert_union_r; [done|].
    apply not_elem_of_list_to_map_1. rewrite <- list_fmap_compose.
    by rewrite (list_fmap_ext (fst ∘ prod_map id Leaf) fst rest) by (by intros ? []).
Qed.

Lemma putBuffers_map_ok (bucket : Bkt) (buffers : gmap string bytes) bucket' :
  putBuffers bucket (map_to_list buffers) = Ok bucket' →
  bucket' = (Leaf <$> buffers) ∪ bucket.
Proof.
  intros Hrun. apply putBuffers_ok in Hrun; [|apply NoDup_fst_map_to_list].
  by rewrite Hrun, list_to_map_fmap, list_to_map_to_list.
Qed.

End save.

Lemma bind_Ok {A B} (m : outcome A) (f : A → outcome B) b :
  m ≫= f = Ok b → ∃ a, m = Ok a ∧ f a = Ok b.
Proof. destruct m as [a|e|msg]; [|done..]. intros. by exists a. Qed.

Section save_replace.
Context `{Codec}.

Lemma tx_CreateBucketIfNotExists_ok (root : Bkt) typ root1 typBucket :
  tx_CreateBucketIfNotExists root typ = Ok (root1, typBucket) →
  typBucket = typeBucketOf root typ
  ∧ <[typ := Sub typBucket]> root1 = <[typ := Sub typBucket]> root.
Proof.
  unfold tx_CreateBucketIfNotExists, bolt.CreateBucketIfNotExists,
    bolt.CreateBucket, typeBucketOf, tx_Bucket, bolt.Bucket.
  case_decide; [done|].
  destruct (root !! typ) as [[v|child]|] eqn:E; simpl; intros [= <- <-]; [done|].
  split; [done|]. apply insert_insert_eq.
Qed.

Lemma SaveValue_tx_ok typ key value (root root' : Bkt) :
  SaveValue_tx typ key value root = Ok root' →
  ∃ bucket buffers,
    serializeObject ∅ value = Ok (bucket, buffers)
    ∧ root' = <[typ := Sub (<[key := Sub ((Leaf <$> buffers) ∪ bucket)]>
                              (typeBucketOf root typ))]> root
    ∧ (∀ v, typeBucketOf root typ !! key ≠ Some (Leaf v)).
Proof.
  unfold SaveValue_tx. intros Hrun.
  apply bind_Ok in Hrun as ([root1 typBucket] & Hc & Hrun).
  apply tx_CreateBucketIfNotExists_ok in Hc as [-> Hroot].
  set (tb := typeBucketOf root typ) in *.
  apply bind_Ok in Hrun as (tb1 & Hdel & Hrun).
  apply bind_Ok in Hrun as (tb2 & Hcreate & Hrun).
  apply bind_Ok in Hrun as ([bucket buffers] & Hser & Hrun).
  apply bind_Ok in Hrun as (rec & Hput & Hrun).
  injection Hrun as <-.
  assert (<[key := Sub ∅]> tb1 = <[key := Sub ∅]> tb
          ∧ (∀ v, tb1 !! key = Some (Leaf v) ↔ tb !! key = Some (Leaf v)))
    as [Htb1 Hleaf].
  { unfold bolt.Bucket, bolt.DeleteBucket in Hdel.
    destruct (tb !! key) as [[v|child]|] eqn:E; injection Hdel as <-.
    1,3: by rewrite E.
    split; [apply insert_delete_eq|]. intros v. rewrite lookup_delete_eq.
    split; intros [=]. }
  assert (tb2 = <[key := Sub ∅]> tb ∧ ∀ v, tb !! key ≠ Some (Leaf v))
    as [-> Hnoleaf].
  { unfold bolt.CreateBucket in Hcreate.
    destruct (decide (String.length key = 0%nat)); [done|].
    destruct (tb1 !! key) as [[v|child]|] eqn:E; [done..|].
    injection Hcreate as <-. split; [done|].
    intros v Hv. apply Hleaf in Hv. congruence. }
  assert (rec = (Leaf <$> buffers) ∪ bucket) as ->.
  { case_decide as Hsize; [by apply putBuffers_map_ok|].
    injection Hput as <-.
    assert (buffers = ∅) as -> by (apply map_size_empty_iff; lia).
    by rewrite fmap_empty, (left_id_L ∅ (∪)). }
  exists bucket, buffers. split; [done|]. split; [|done].
  unfold bolt.store_child. rewrite !insert_insert_eq.
  apply (f_equal (insert typ
    (Sub (<[key := Sub ((Leaf <$> buffers) ∪ bucket)]> tb)))) in Hroot.
  by rewrite !insert_insert_eq in Hroot.
Qed.

Lemma SaveValue_ok (root : Bkt) typ key value root' :
  SaveValue root typ key value = (root', Ok tt) ↔
  SaveValue_tx typ key value root = Ok root'.
Proof.
  unfold SaveValue, db_Update.
  destruct (SaveValue_tx typ key value root) as [r|e|msg]; naive_solver.
Qed.

Lemma getBucket_insert (root : Bkt) typ key typeBucket bucket :
  getBucket (<[typ := Sub (<[key := Sub bucket]> typeBucket)]> root) typ key
  = Some bucket.
Proof.
  unfold getBucket, tx_Bucket, bolt.Bucket. by rewrite !lookup_insert_eq.
Qed.

(** C1: a successful SaveValue leaves under [key] a record bucket that holds
    exactly what the new record serializes to in a fresh, empty bucket: the
    flat buffers as entries, next to the nested buckets the serializer
    created.  What the store held before under that key has no part in it:
    the same save on any other store ends with the same record bucket. *)
Theorem SaveValue_replaces_record (root : Bkt) typ key value root' :
  SaveValue root typ key value = (root', Ok tt) →
  ∃ bucket buffers,
    serializeObject ∅ value = Ok (bucket, buffers)
    ∧ getBucket root' typ key = Some ((Leaf <$> buffers) ∪ bucket)
    ∧ (∀ root2 root2',
         SaveValue root2 typ key value = (root2', Ok tt) →
         getBucket root2' typ key = getBucket root' typ key).
Proof.
  intros Hrun. apply SaveValue_ok, SaveValue_tx_ok in Hrun
    as (bucket & buffers & Hser & -> & _).
  exists bucket, buffers. split; [done|]. split; [apply getBucket_insert|].
  intros root2 root2' Hrun2. apply SaveValue_ok, SaveValue_tx_ok in Hrun2
    as (bucket2 & buffers2 & Hser2 & -> & _).
  rewrite Hser in Hser2. injection Hser2 as <- <-.
  by rewrite !getBucket_insert.
Qed.

End save_replace.

(** *** Count *)

Section count.
Context `{Codec}.

Lemma CountValues_size (root : Bkt) typ typeBucket :
  tx_Bucket root typ = Some typeBucket →
  CountValues root typ = (Z.of_nat (size typeBucket), Ok tt).
Proof.
  intros E. unfold CountValues. rewrite E, foldl_count, length_ForEach.
  f_equal.
Qed.

Lemma CountValues_zero (root : Bkt) typ :
  CountValues root typ = (0, Ok tt) ↔ typeBucketOf root typ = ∅.
Proof.
  unfold typeBucketOf. destruct (tx_Bucket root typ) as [tb|] eqn:E.
  - rewrite (CountValues_size _ _ _ E). simpl. rewrite <- map_size_empty_iff.
    split; [intros [= ?]; lia | by intros ->].
  - unfold CountValues. by rewrite E.
Qed.

Lemma recordBuckets_all (typeBucket : Bkt) :
  onlyRecordBuckets typeBucket → recordBuckets typeBucket = typeBucket.
Proof.
  intros Hall. apply map_filter_id. intros key n Hn. by eapply Hall.
Qed.

Lemma tx_Bucket_insert (root : Bkt) typ typeBucket :
  tx_Bucket (<[typ := Sub typeBucket]> root) typ = Some typeBucket.
Proof. unfold tx_Bucket, bolt.Bucket. by rewrite lookup_insert_eq. Qed.

Lemma tx_Bucket_insert_ne (root : Bkt) typ typ' typeBucket :
  typ ≠ typ' →
  tx_Bucket (<[typ := Sub typeBucket]> root) typ' = tx_Bucket root typ'.
Proof. intros. unfold tx_Bucket, bolt.Bucket. by rewrite lookup_insert_ne. Qed.

Lemma saveEach_typeBucket (root : Bkt) typ records root' :
  saveEach root typ records = Some root' →
  (records ≠ [] → tx_Bucket root' typ = Some (typeBucketOf root' typ))
  ∧ (∀ key, key ∈ records.*1 →
       ∃ bucket, typeBucketOf root' typ !! key = Some (Sub bucket))
  ∧ (∀ key, key ∉ records.*1 →
       typeBucketOf root' typ !! key = typeBucketOf root typ !! key)
  ∧ (∀ typ', typ ≠ typ' → tx_Bucket root' typ' = tx_Bucket root typ').
Proof.
  revert root. induction records as [|[key value] rest IH]; intros root Hrun;
    simpl in Hrun.
  - injection Hrun as <-. repeat split; try done.
    intros key Hin. by apply elem_of_nil in Hin.
  - destruct (SaveValue root typ key value) as [root1 [[]|e|msg]] eqn:Hsave;
      [|done..].
    apply SaveValue_ok, SaveValue_tx_ok in Hsave
      as (bucket & buffers & _ & -> & _).
    destruct (IH _ Hrun) as (Hsome & Hin & Hout & Hother). clear IH.
    assert (typeBucketOf (<[typ:=Sub (<[key:=Sub ((Leaf <$> buffers) ∪ bucket)]>
                                        (typeBucketOf root typ))]> root) typ
            = <[key:=Sub ((Leaf <$> buffers) ∪ bucket)]> (typeBucketOf root typ))
      as Etb.
    { unfold typeBucketOf at 1. by rewrite tx_Bucket_insert. }
    rewrite Etb in Hout. repeat split.
    + intros _. destruct rest as [|r rest]; [|by apply Hsome].
      injection Hrun as <-. by rewrite Etb, tx_Bucket_insert.
    + intros k Hk. rewrite fmap_cons in Hk. simpl in Hk.
      destruct (decide (k ∈ rest.*1)) as [Hrest|Hrest]; [by apply Hin|].
      apply elem_of_cons in Hk as [->|?]; [|done].
      rewrite (Hout _ Hrest), lookup_insert_eq. by eexists.
    + intros k Hk. rewrite fmap_cons in Hk. simpl in Hk.
      apply not_elem_of_cons in Hk as [Hne Hrest].
      rewrite (Hout _ Hrest). by rewrite lookup_insert_ne.
    + intros typ' Hne. rewrite (Hother _ Hne). by apply tx_Bucket_insert_ne.
Qed.

Lemma deleteValues_range_ok (typeBucket : Bkt) keys :
  ∃ typeBucket',
    deleteValues_range typeBucket keys = Ok typeBucket'
    ∧ ∀ key, typeBucket' !! key
             = if decide (key ∈ keys)
               then match typeBucket !! key with
                    | Some (Sub _) => None
                    | other => other
                    end
               else typeBucket !! key.
Proof.
  revert typeBucket. induction keys as [|k rest IH]; intros typeBucket;
    cbn [deleteValues_range].
  - exists typeBucket. split; [done|]. intros key.
    by rewrite decide_False by apply not_elem_of_nil.
  - unfold bolt.Bucket, bolt.DeleteBucket.
    destruct (typeBucket !! k) as [[v|child]|] eqn:E;
      cbn [mbind outcome_bind].
    + destruct (IH typeBucket) as (tb' & -> & Htb'). exists tb'. split; [done|].
      intros key. rewrite Htb'. destruct (decide (key = k)) as [->|Hne].
      * rewrite (decide_True (P := k ∈ k :: rest)) by left.
        rewrite E. by case_decide.
      * repeat case_decide; try done; exfalso; set_unfold; tauto.
    + destruct (IH (delete k typeBucket)) as (tb' & -> & Htb').
      exists tb'. split; [done|].
      intros key. rewrite Htb'. destruct (decide (key = k)) as [->|Hne].
      * rewrite (decide_True (P := k ∈ k :: rest)) by left.
        rewrite lookup_delete_eq, E. by case_decide.
      * rewrite lookup_delete_ne by done.
        repeat case_decide; try done; exfalso; set_unfold; tauto.
    + destruct (IH typeBucket) as (tb' & -> & Htb'). exists tb'. split; [done|].
      intros key. rewrite Htb'. destruct (decide (key = k)) as [->|Hne].
      * rewrite (decide_True (P := k ∈ k :: rest)) by left.
        rewrite E. by case_decide.
      * repeat case_decide; try done; exfalso; set_unfold; tauto.
Qed.

Lemma DeleteValues_ok (root : Bkt) typ keys :
  ∃ root',
    DeleteValues root typ keys = (root', Ok tt)
    ∧ (∀ key, typeBucketOf root' typ !! key
              = if decide (key ∈ keys)
                then match typeBucketOf root typ !! key with
                     | Some (Sub _) => None
                     | other => other
                     end
                else typeBucketOf root typ !! key)
    ∧ (tx_Bucket root' typ = None ↔ tx_Bucket root typ = None)
    ∧ (∀ typ', typ ≠ typ' → tx_Bucket root' typ' = tx_Bucket root typ').
Proof.
  unfold DeleteValues. case_decide as Hlen.
  - exists root. split; [done|]. destruct keys; [|done]. split; [|done].
    intros key. by rewrite decide_False by apply not_elem_of_nil.
  - unfold db_Update, deleteValues, typeBucketOf.
    destruct (tx_Bucket root typ) as [typeBucket|] eqn:E; simpl.
    + destruct (deleteValues_range_ok typeBucket keys) as (tb' & -> & Htb').
      simpl. eexists. split; [done|]. unfold bolt.store_child.
      rewrite tx_Bucket_insert. split; [done|]. split; [done|].
      intros typ' Hne. by apply tx_Bucket_insert_ne.
    + exists root. split; [done|]. rewrite E. simpl. split; [|done].
      intros key. rewrite lookup_empty. by case_decide.
Qed.

Lemma CountValues_typeBucketOf (root : Bkt) typ :
  CountValues root typ = (Z.of_nat (size (typeBucketOf root typ)), Ok tt).
Proof.
  unfold typeBucketOf. destruct (tx_Bucket root typ) as [tb|] eqn:E.
  - by apply CountValues_size.
  - unfold CountValues. by rewrite E.
Qed.

Lemma size_of_keys (typeBucket : Bkt) (keys : list string) :
  NoDup keys →
  (∀ key, is_Some (typeBucket !! key) ↔ key ∈ keys) →
  size typeBucket = length keys.
Proof.
  intros Hnd Hdom. rewrite <- size_dom.
  assert (dom typeBucket = list_to_set keys) as ->.
  { apply set_eq. intros key. rewrite elem_of_dom, elem_of_list_to_set. apply Hdom. }
  by apply size_list_to_set.
Qed.

(** C9: CountValues returns the number of record buckets directly under the
    type bucket.  Starting from a type that holds no record, after saving N
    records under N distinct keys it returns N; after then deleting M of
    those keys it returns N - M; and when the type bucket does not exist it
    returns zero and no error. *)
Theorem CountValues_counts_records (root : Bkt) typ records root' keys :
  CountValues root typ = (0, Ok tt) →
  NoDup records.*1 →
  saveEach root typ records = Some root' →
  NoDup keys →
  keys ⊆ records.*1 →
  CountValues root' typ = (Z.of_nat (length records), Ok tt)
  ∧ (∃ root'',
       DeleteValues root' typ keys = (root'', Ok tt)
       ∧ CountValues root'' typ
         = (Z.of_nat (length records) - Z.of_nat (length keys), Ok tt))
  ∧ (∀ root0, tx_Bucket root0 typ = None → CountValues root0 typ = (0, Ok tt))
  ∧ (∀ root0 typeBucket,
       tx_Bucket root0 typ = Some typeBucket →
       onlyRecordBuckets typeBucket →
       CountValues root0 typ = (Z.of_nat (size (recordBuckets typeBucket)), Ok tt)).
Proof.
  intros Hzero Hnd Hsave Hndk Hsub.
  apply CountValues_zero in Hzero.
  destruct (saveEach_typeBucket _ _ _ _ Hsave) as (_ & Hin & Hout & _).
  rewrite Hzero in Hout.
  assert (∀ key, is_Some (typeBucketOf root' typ !! key) ↔ key ∈ records.*1)
    as Hdom.
  { intros key. split.
    - intros Hsome. destruct (decide (key ∈ records.*1)) as [|Hn]; [done|].
      rewrite (Hout _ Hn), lookup_empty in Hsome. by destruct Hsome.
    - intros Hk. destruct (Hin _ Hk) as [bucket ->]. by eexists. }
  split; [|split; [|split]].
  - rewrite CountValues_typeBucketOf.
    by rewrite (size_of_keys _ _ Hnd Hdom), length_fmap.
  - destruct (DeleteValues_ok root' typ keys) as (root'' & Hdel & Hlook & _).
    exists root''. split; [done|]. rewrite CountValues_typeBucketOf.
    assert (size (typeBucketOf root'' typ)
            = (length records - length keys)%nat) as ->.
    { rewrite <- size_dom.
      assert (dom (typeBucketOf root'' typ)
              = list_to_set records.*1 ∖ list_to_set keys) as ->.
      { apply set_eq. intros key.
        rewrite elem_of_dom, elem_of_difference, !elem_of_list_to_set, Hlook.
        case_decide as Hk.
        - destruct (Hin _ (Hsub _ Hk)) as [bucket ->].
          split; [by intros [? ?] | tauto].
        - rewrite Hdom. tauto. }
      rewrite size_difference.
      - by rewrite !size_list_to_set, length_fmap by done.
      - intros key. rewrite !elem_of_list_to_set. apply Hsub. }
    assert (length keys ≤ length records)%nat.
    { rewrite <- (length_fmap fst records).
      apply submseteq_length, NoDup_submseteq; [done|]. apply Hsub. }
    f_equal. lia.
  - intros root0 E. unfold CountValues. by rewrite E.
  - intros root0 typeBucket E Hall.
    rewrite (recordBuckets_all _ Hall). by apply CountValues_size.
Qed.

End count.

(** *** Partial update *)

Section update.
Context `{Codec}.

Lemma Put_frame (b : Bkt) key value b' k :
  bolt.Put b key value = Ok b' → k ≠ key → b' !! k = b !! k.
Proof. intros ->%Put_ok Hne. by apply lookup_insert_ne. Qed.

Lemma UpdateValue_property_frame (bucket : Bkt) propKey propValue bucket' k :
  rawMapConfined →
  UpdateValue_property bucket propKey propValue = Ok bucket' →
  k ≠ toBucketField propKey →
  bucket' !! k = bucket !! k.
Proof.
  intros Hraw Hrun Hne. unfold UpdateValue_property in Hrun.
  destruct propValue as [|s|b|w n|w n|m|m|t|kind]; simpl in Hrun; try done.
  - by eapply Put_frame.
  - by eapply Put_frame.
  - rewrite decide_True in Hrun by done. by eapply Put_frame.
  - rewrite decide_True in Hrun by done. by eapply Put_frame.
  - by eapply Hraw.
  - apply bind_Ok in Hrun as (msgBuf & _ & Hrun). by eapply Put_frame.
  - by eapply Put_frame.
  - destruct kind; simpl in Hrun; try done; by injection Hrun as <-.
Qed.

Lemma UpdateValue_range_frame (bucket : Bkt) properties bucket' k :
  rawMapConfined →
  UpdateValue_range bucket properties = Ok bucket' →
  k ∉ toBucketField <$> properties.*1 →
  bucket' !! k = bucket !! k.
Proof.
  intros Hraw. revert bucket.
  induction properties as [|[propKey propValue] rest IH]; intros bucket Hrun Hk;
    simpl in Hrun.
  - by injection Hrun as <-.
  - rewrite !fmap_cons in Hk. apply not_elem_of_cons in Hk as [Hne Hk].
    apply bind_Ok in Hrun as (bucket1 & Hstep & Hrun).
    rewrite (IH _ Hrun Hk). by eapply UpdateValue_property_frame.
Qed.

Lemma UpdateValue_cases (root : Bkt) typ key properties root' r bucket :
  getBucket root typ key = Some bucket →
  UpdateValue root typ key properties = (root', r) →
  root' = root
  ∨ ∃ typeBucket bucket',
      tx_Bucket root typ = Some typeBucket
      ∧ UpdateValue_range bucket properties = Ok bucket'
      ∧ root' = <[typ := Sub (<[key := Sub bucket']> typeBucket)]> root.
Proof.
  unfold getBucket, UpdateValue, db_Update, UpdateValue_tx.
  destruct (tx_Bucket root typ) as [typeBucket|]; [|done].
  intros ->. case_decide; [intros [= <- _]; by left|].
  destruct (UpdateValue_range bucket properties) as [bucket'|e|msg]; simpl;
    intros [= <- _]; [|by left..].
  right. by exists typeBucket, bucket'.
Qed.

(** C5: UpdateValue on an existing record overwrites only the entries
    whose field names are in the property map: every other entry of the
    record bucket is what it was, so a field that is not named keeps its
    stored value and reads back unchanged.  (The field mapper is injective
    and a map write is confined to its own key: the contract of the
    codec.) *)
Theorem UpdateValue_leaves_other_fields (root : Bkt) typ key properties root' r bucket :
  Inj (=) (=) toBucketField →
  rawMapConfined →
  getBucket root typ key = Some bucket →
  UpdateValue root typ key properties = (root', r) →
  ∃ bucket',
    getBucket root' typ key = Some bucket'
    ∧ (∀ k, k ∉ toBucketField <$> properties.*1 → bucket' !! k = bucket !! k)
    ∧ (∀ field, field ∉ properties.*1 →
         bucket' !! toBucketField field = bucket !! toBucketField field
         ∧ ∀ typObject, getFieldObject bucket' typObject field
                        = getFieldObject bucket typObject field).
Proof.
  intros Hinj Hraw Hb Hrun.
  assert (∃ bucket', getBucket root' typ key = Some bucket'
            ∧ ∀ k, k ∉ toBucketField <$> properties.*1 →
                   bucket' !! k = bucket !! k) as (bucket' & Hb' & Hframe).
  { destruct (UpdateValue_cases _ _ _ _ _ _ _ Hb Hrun)
      as [-> | (typeBucket & bucket' & _ & Hrange & ->)].
    - by exists bucket.
    - exists bucket'. split; [apply getBucket_insert|].
      intros k Hk. by eapply UpdateValue_range_frame. }
  exists bucket'. split; [done|]. split; [done|].
  intros field Hfield.
  assert (bucket' !! toBucketField field = bucket !! toBucketField field) as E.
  { apply Hframe. intros (field' & Heq & Hin)%list_elem_of_fmap.
    apply Hinj in Heq as ->. done. }
  split; [done|]. intros typObject. by apply getFieldObject_ext.
Qed.

End update.

(** *** The data model is kept by every write *)

Section invariant.
Context `{Codec}.

Lemma wellFormed_empty : wellFormed ∅.
Proof. intros typ typeBucket. unfold tx_Bucket, bolt.Bucket. by rewrite lookup_empty. Qed.

Lemma onlyRecordBuckets_typeBucketOf (root : Bkt) typ :
  wellFormed root → onlyRecordBuckets (typeBucketOf root typ).
Proof.
  intros Hwf. unfold typeBucketOf.
  destruct (tx_Bucket root typ) as [tb|] eqn:E; simpl; [by eapply Hwf|].
  intros key n. by rewrite lookup_empty.
Qed.

Lemma wellFormed_insert (root : Bkt) typ typeBucket :
  wellFormed root → onlyRecordBuckets typeBucket →
  wellFormed (<[typ := Sub typeBucket]> root).
Proof.
  intros Hwf Htb typ' tb'. destruct (decide (typ = typ')) as [<-|Hne].
  - rewrite tx_Bucket_insert. by intros [= <-].
  - rewrite tx_Bucket_insert_ne by done. apply Hwf.
Qed.

Lemma onlyRecordBuckets_insert (typeBucket : Bkt) key bucket :
  onlyRecordBuckets typeBucket →
  onlyRecordBuckets (<[key := Sub bucket]> typeBucket).
Proof.
  intros Htb k n. destruct (decide (key = k)) as [<-|Hne].
  - rewrite lookup_insert_eq. by intros [= <-].
  - rewrite lookup_insert_ne by done. apply Htb.
Qed.

Lemma wellFormed_SaveValue (root : Bkt) typ key value :
  wellFormed root → wellFormed (SaveValue root typ key value).1.
Proof.
  intros Hwf. destruct (SaveValue root typ key value) as [root' r] eqn:Hrun.
  simpl. destruct r as [[]|e|msg].
  - apply SaveValue_ok, SaveValue_tx_ok in Hrun as (bucket & buffers & _ & -> & _).
    apply wellFormed_insert; [done|].
    by apply onlyRecordBuckets_insert, onlyRecordBuckets_typeBucketOf.
  - unfold SaveValue, db_Update in Hrun.
    destruct (SaveValue_tx typ key value root); by injection Hrun as <-.
  - unfold SaveValue, db_Update in Hrun.
    destruct (SaveValue_tx typ key value root); by injection Hrun as <-.
Qed.

Lemma wellFormed_DeleteValues (root : Bkt) typ keys :
  wellFormed root → wellFormed (DeleteValues root typ keys).1.
Proof.
  intros Hwf.
  destruct (DeleteValues_ok root typ keys) as (root' & -> & Hlook & _ & Hother).
  simpl. intros typ' tb' E. destruct (decide (typ = typ')) as [<-|Hne].
  - intros key n Hn.
    assert (typeBucketOf root' typ = tb') as Etb by (unfold typeBucketOf; by rewrite E).
    rewrite <- Etb, Hlook in Hn.
    apply (onlyRecordBuckets_typeBucketOf root typ Hwf key).
    case_decide; [|done].
    by destruct (typeBucketOf root typ !! key) as [[v|c]|].
  - rewrite (Hother _ Hne) in E. by eapply Hwf.
Qed.

Lemma wellFormed_UpdateValue (root : Bkt) typ key properties :
  wellFormed root → wellFormed (UpdateValue root typ key properties).1.
Proof.
  intros Hwf.
  destruct (UpdateValue root typ key properties) as [root' r] eqn:Hrun. simpl.
  destruct (getBucket root typ key) as [bucket|] eqn:Hb.
  - destruct (UpdateValue_cases _ _ _ _ _ _ _ Hb Hrun)
      as [-> | (typeBucket & bucket' & Htb & _ & ->)]; [done|].
    apply wellFormed_insert; [done|].
    apply onlyRecordBuckets_insert. by eapply Hwf.
  - unfold UpdateValue, db_Update in Hrun.
    rewrite UpdateValue_tx_missing in Hrun by done. by injection Hrun as <-.
Qed.

End invariant.

Section refcodec_facts.

Lemma refcodec_mapper_inj : Inj (=) (=) (@toBucketField refcodec.codec).
Proof. by intros x y. Qed.

Lemma refcodec_rawMapConfined : @rawMapConfined refcodec.codec.
Proof.
  intros bucket name values bucket' Hrun k Hne. simpl in Hrun.
  unfold refcodec.writeRawMap in Hrun.
  apply bind_Ok in Hrun as (parent & Hdel & Hrun).
  assert (parent !! k = bucket !! k) as <-.
  { unfold bolt.Bucket, bolt.DeleteBucket in Hdel.
    destruct (bucket !! name) as [[v|child]|]; injection Hdel as <-; try done.
    by apply lookup_delete_ne. }
  destruct (decide (length (map_to_list (default ∅ values)) = 0%nat));
    [by injection Hrun as <-|].
  apply bind_Ok in Hrun as (parent1 & Hcreate & Hrun).
  apply bind_Ok in Hrun as (child & _ & Hrun). injection Hrun as <-.
  unfold bolt.store_child. rewrite lookup_insert_ne by done.
  unfold bolt.CreateBucket in Hcreate.
  destruct (decide (String.length name = 0%nat)); [done|].
  destruct (parent !! name) as [[v|c]|]; [done..|]. injection Hcreate as <-.
  by apply lookup_insert_ne.
Qed.

End refcodec_facts.

(** *** Load by filter *)

Section load_by_filter.
Context `{Codec}.

(** A requested field with no entry in the record bucket is read as the
    nil string map, which is a value: the filter finds the field in its
    map. *)
Lemma matchObject_absent_field (bucket : Bkt) field typObject filter :
  bucket !! toBucketField field = None →
  matchObject bucket [field] typObject (Some filter)
  = ([CallFilter {[field := VStrMap None]}],
     Ok (filter {[field := VStrMap None]})).
Proof.
  intros E. unfold matchObject. simpl.
  by rewrite (getFieldObject_no_entry _ _ _ E).
Qed.

Lemma loadValuesByFilter_range_false (typeBucket : Bkt) typ keys fields typObject values :
  fields ≠ [] →
  (loadValuesByFilter_range typeBucket typ keys fields typObject
     (Some (λ _, false)) values).2.1 = values.
Proof.
  intros Hf. induction keys as [|key rest IH]; simpl; [done|].
  destruct (bolt.Bucket typeBucket key) as [bucket|]; [|done].
  assert (∃ t r, matchObject bucket fields typObject (Some (λ _, false)) = (t, r)
                 ∧ r ≠ Ok true) as (t & r & -> & Hr).
  { unfold matchObject. rewrite decide_False by (by destruct fields).
    destruct (matchObject_range bucket fields typObject ∅) as [t [fv|e|msg]];
      simpl; eexists _, _; (split; [done|done]). }
  destruct r as [[|]|e|msg]; done.
Qed.

(** A filter that always answers false selects nothing. *)
Lemma LoadValuesByFilter_false (root : Bkt) typ fields typObject :
  fields ≠ [] →
  (LoadValuesByFilter root typ fields typObject (Some (λ _, false))).2.1 = ∅.
Proof.
  intros Hf. unfold LoadValuesByFilter, loadValuesByFilter.
  destruct (tx_Bucket root typ) as [typeBucket|]; [|done].
  case_decide; [done|]. by apply loadValuesByFilter_range_false.
Qed.

End load_by_filter.

(** *** Properties of an update that no case of the switch takes *)

Section update_kinds.
Context `{Codec}.

Lemma UpdateValue_property_no_case (bucket : Bkt) propKey kind :
  kind ∉ [KString; KBool; KMap] →
  (∀ w, kind ≠ KInt w ∧ kind ≠ KUint w) →
  UpdateValue_property bucket propKey (VOther kind) = Ok bucket.
Proof.
  rewrite !not_elem_of_cons. intros (? & ? & ? & _) Hw.
  destruct kind as [| |w|w| | | | | | | | | | | | | | |]; try done.
  - by destruct (Hw w).
  - by destruct (Hw w).
Qed.

Lemma UpdateValue_property_other_map (bucket : Bkt) propKey :
  UpdateValue_property bucket propKey (VOther KMap) = Panic "interface conversion".
Proof. done. Qed.

Lemma UpdateValue_property_nil (bucket : Bkt) propKey :
  UpdateValue_property bucket propKey VNil
  = Panic "invalid memory address or nil pointer dereference".
Proof. done. Qed.

End update_kinds.

(** *** The order in which the buffers are written does not matter *)

Section put_order.

Lemma Put_Ok_iff (b : Bkt) key value b' :
  bolt.Put b key value = Ok b' ↔ canPut b key value ∧ b' = <[key := Leaf value]> b.
Proof.
  unfold bolt.Put, canPut. repeat case_decide; try (split; [done|tauto]).
  destruct (b !! key) as [[v|child]|] eqn:E.
  - split; [intros [= <-]|intros [_ ->]]; done.
  - split; [done|]. intros [(_ & _ & _ & Hn) _]. by destruct (Hn child).
  - split; [intros [= <-]|intros [_ ->]]; done.
Qed.

Lemma canPut_insert (b : Bkt) k v key value :
  k ≠ key →
  canPut (<[k := Leaf v]> b) key value ↔ canPut b key value.
Proof. intros Hne. unfold canPut. by rewrite lookup_insert_ne. Qed.

Lemma putBuffers_succeeds (bucket : Bkt) buffers :
  NoDup buffers.*1 →
  (∃ bucket', putBuffers bucket buffers = Ok bucket')
  ↔ Forall (λ kv, canPut bucket kv.1 kv.2) buffers.
Proof.
  revert bucket. induction buffers as [|[k v] rest IH]; intros bucket Hnd.
  { split; [by constructor | by exists bucket]. }
  rewrite fmap_cons in Hnd. apply NoDup_cons in Hnd as [Hk Hnd].
  assert (∀ b, Forall (λ kv, canPut (<[k := Leaf v]> b) kv.1 kv.2) rest
               ↔ Forall (λ kv, canPut b kv.1 kv.2) rest) as Hins.
  { intros b. rewrite !Forall_forall. split; intros Hall [k' v'] Hin;
      specialize (Hall _ Hin); simpl in *;
      (apply canPut_insert in Hall || apply canPut_insert); try done;
      intros ->; apply Hk, list_elem_of_fmap; by exists (k', v'). }
  cbn [putBuffers]. rewrite Forall_cons. simpl. split.
  - intros [bucket' Hrun]. apply bind_Ok in Hrun as (b1 & Hput & Hrun).
    apply Put_Ok_iff in Hput as [Hcan ->]. split; [done|].
    apply Hins, IH; [done|]. by exists bucket'.
  - intros [Hcan Hall].
    assert (bolt.Put bucket k v = Ok (<[k := Leaf v]> bucket)) as ->
      by (by apply Put_Ok_iff).
    apply IH; [done|]. by apply Hins.
Qed.

(** A Go map is ranged over in an order the runtime picks.  Whether all
    the writes of [SaveValue] succeed, and the bucket they end in, is the
    same for every order. *)
Lemma putBuffers_perm (bucket : Bkt) buffers buffers' bucket' :
  NoDup buffers.*1 →
  buffers ≡ₚ buffers' →
  putBuffers bucket buffers = Ok bucket' →
  putBuffers bucket buffers' = Ok bucket'.
Proof.
  intros Hnd Hperm Hrun.
  assert (NoDup buffers'.*1) as Hnd' by (by rewrite <- Hperm).
  assert (∃ b'', putBuffers bucket buffers' = Ok b'') as [b'' Hrun'].
  { apply putBuffers_succeeds; [done|]. rewrite <- Hperm.
    apply putBuffers_succeeds; [done|]. by exists bucket'. }
  rewrite Hrun'. f_equal.
  apply putBuffers_ok in Hrun, Hrun'; [|done..]. subst.
  f_equal. apply list_to_map_proper; [|by rewrite Hperm].
  rewrite <- list_fmap_compose.
  by rewrite (list_fmap_ext (fst ∘ prod_map id Leaf) fst buffers') by (by intros ? []).
Qed.

End put_order.

(** *** An update with a property that makes it panic *)

Section update_panics.
Context `{Codec}.

Lemma UpdateValue_range_never_ok (bucket : Bkt) properties propKey bucket' :
  (propKey, VOther KMap) ∈ properties ∨ (propKey, VNil) ∈ properties →
  UpdateValue_range bucket properties ≠ Ok bucket'.
Proof.
  revert bucket. induction properties as [|[k v] rest IH]; intros bucket Hin.
  { destruct Hin as [Hin|Hin]; by apply elem_of_nil in Hin. }
  cbn [UpdateValue_range]. intros Hrun.
  apply bind_Ok in Hrun as (bucket1 & Hstep & Hrun).
  destruct Hin as [Hin|Hin]; apply elem_of_cons in Hin as [[= <- <-]|Hin];
    try done; eapply IH; eauto.
Qed.

(** Whatever the order of the range, an update of an existing record whose
    properties hold a map that is no string map, or a nil value, writes
    nothing and does not return nil. *)
Lemma UpdateValue_never_commits (root : Bkt) typ key properties propKey bucket :
  getBucket root typ key = Some bucket →
  (propKey, VOther KMap) ∈ properties ∨ (propKey, VNil) ∈ properties →
  (UpdateValue root typ key properties).1 = root
  ∧ (UpdateValue root typ key properties).2 ≠ Ok tt.
Proof.
  unfold getBucket, UpdateValue, db_Update, UpdateValue_tx.
  destruct (tx_Bucket root typ) as [typeBucket|]; [|done]. intros -> Hin.
  rewrite decide_False.
  2: { destruct properties; [|done]. destruct Hin as [Hin|Hin];
       by apply elem_of_nil in Hin. }
  destruct (UpdateValue_range bucket properties) as [bucket'|e|msg] eqn:Hrun;
    [|done..].
  by apply UpdateValue_range_never_ok with (propKey := propKey) in Hrun.
Qed.

End update_panics.

(** *** What a filtered scan selects *)

Section filter_selects.
Context `{Codec}.

Lemma after_snd {A} (t : trace) (r : trace * A) : (after t r).2 = r.2.
Proof. done. Qed.

Lemma loadValuesByFilter_range_frame (typeBucket : Bkt) typ keys fields
    typObject filter values key :
  key ∉ keys
  ∨ bolt.Bucket typeBucket key = None
  ∨ (∃ bucket, bolt.Bucket typeBucket key = Some bucket
               ∧ (matchObject bucket fields typObject filter).2 ≠ Ok true) →
  (loadValuesByFilter_range typeBucket typ keys fields typObject filter values).2.1
    !! key = values !! key.
Proof.
  revert values. induction keys as [|k rest IH]; intros values Hkey; [done|].
  assert (key ∉ rest
          ∨ bolt.Bucket typeBucket key = None
          ∨ (∃ bucket, bolt.Bucket typeBucket key = Some bucket
               ∧ (matchObject bucket fields typObject filter).2 ≠ Ok true))
    as Hrest.
  { destruct Hkey as [Hkey|Hkey]; [|by right].
    left. by apply not_elem_of_cons in Hkey as [_ ?]. }
  cbn [loadValuesByFilter_range].
  destruct (bolt.Bucket typeBucket k) as [bucket|] eqn:Hb;
    [|rewrite after_snd; by apply IH].
  destruct (matchObject bucket fields typObject filter) as [t [[|]|e|msg]] eqn:Hm;
    [|rewrite after_snd; by apply IH|done..].
  destruct (deserializeObject bucket typObject) as [targetObj|e|msg]; [|done..].
  rewrite after_snd, IH by done. apply lookup_insert_ne. intros ->.
  destruct Hkey as [Hkey|[Hkey|(bucket' & Hb' & Hne)]].
  - apply Hkey. left.
  - congruence.
  - rewrite Hb in Hb'. injection Hb' as <-. by rewrite Hm in Hne.
Qed.

Lemma loadValuesByFilter_range_selected (typeBucket : Bkt) typ keys fields
    typObject filter values key bucket :
  (loadValuesByFilter_range typeBucket typ keys fields typObject filter values).2.2
    = Ok tt →
  key ∈ keys →
  bolt.Bucket typeBucket key = Some bucket →
  (matchObject bucket fields typObject filter).2 = Ok true →
  ∃ targetObj,
    deserializeObject bucket typObject = Ok targetObj
    ∧ (loadValuesByFilter_range typeBucket typ keys fields typObject filter
         values).2.1 !! key = Some targetObj.
Proof.
  revert values. induction keys as [|k rest IH]; intros values Hok Hin Hb Hm.
  { by apply elem_of_nil in Hin. }
  cbn [loadValuesByFilter_range] in *.
  destruct (decide (key ∈ rest)) as [Hrest|Hrest].
  - destruct (bolt.Bucket typeBucket k) as [b|];
      [|rewrite !after_snd in *; by apply IH].
    destruct (matchObject b fields typObject filter) as [t [[|]|e|msg]];
      [|rewrite !after_snd in *; by apply IH|done..].
    destruct (deserializeObject b typObject) as [targetObj|e|msg]; [|done..].
    rewrite !after_snd in *. by apply IH.
  - apply elem_of_cons in Hin as [->|?]; [|done]. rewrite Hb in *.
    destruct (matchObject bucket fields typObject filter) as [t r].
    simpl in Hm. subst r.
    destruct (deserializeObject bucket typObject) as [targetObj|e|msg]; [|done..].
    exists targetObj. split; [done|]. rewrite after_snd.
    rewrite loadValuesByFilter_range_frame by (by left).
    apply lookup_insert_eq.
Qed.

(** When the scan returns no error, a record is in the result exactly when
    its bucket matched, and it is there with its deserialized value. *)
Lemma LoadValuesByFilter_selects (root : Bkt) typ fields typObject filter key obj :
  (LoadValuesByFilter root typ fields typObject filter).2.2 = Ok tt →
  (LoadValuesByFilter root typ fields typObject filter).2.1 !! key = Some obj
  ↔ ∃ bucket,
      getBucket root typ key = Some bucket
      ∧ (matchObject bucket fields typObject filter).2 = Ok true
      ∧ deserializeObject bucket typObject = Ok obj.
Proof.
  unfold LoadValuesByFilter, loadValuesByFilter, getBucket.
  destruct (tx_Bucket root typ) as [typeBucket|] eqn:Htb; simpl.
  2: { intros _. rewrite lookup_empty. split; [done | by intros (? & ? & _)]. }
  destruct (decide (length (getKeys typeBucket) = 0%nat)) as [Hlen|Hlen]; simpl.
  { intros _. rewrite lookup_empty. split; [done|].
    intros (bucket & Hb & _). exfalso.
    assert (key ∈ getKeys typeBucket) as Hin.
    { apply elem_of_ForEach_keys. unfold bolt.Bucket in Hb.
      destruct (typeBucket !! key); [by eexists | done]. }
    destruct (getKeys typeBucket); [by apply elem_of_nil in Hin | done]. }
  intros Hok. split.
  - intros Hsel.
    destruct (bolt.Bucket typeBucket key) as [bucket|] eqn:Hb.
    2: { rewrite loadValuesByFilter_range_frame in Hsel by (right; by left).
         by rewrite lookup_empty in Hsel. }
    destruct ((matchObject bucket fields typObject filter).2)
      as [[|]|e|msg] eqn:Hm.
    2,3,4: rewrite loadValuesByFilter_range_frame in Hsel
             by (right; right; exists bucket; by rewrite Hm);
           by rewrite lookup_empty in Hsel.
    destruct (decide (key ∈ getKeys typeBucket)) as [Hin|Hin].
    2: { rewrite loadValuesByFilter_range_frame in Hsel by (by left).
         by rewrite lookup_empty in Hsel. }
    destruct (loadValuesByFilter_range_selected _ _ _ _ _ _ _ _ _ Hok Hin Hb Hm)
      as (targetObj & Hde & Hsel').
    exists bucket. rewrite Hsel' in Hsel. injection Hsel as <-. done.
  - intros (bucket & Hb & Hm & Hde).
    assert (key ∈ getKeys typeBucket) as Hin.
    { apply elem_of_ForEach_keys. unfold bolt.Bucket in Hb.
      destruct (typeBucket !! key); [by eexists | done]. }
    destruct (loadValuesByFilter_range_selected _ _ _ _ _ _ _ _ _ Hok Hin Hb Hm)
      as (targetObj & Hde' & Hsel').
    rewrite Hsel'. congruence.
Qed.

(** With fields to read and a filter, a bucket matches when the filter
    answers true on the map [matchObject_range] has built. *)
Lemma matchObject_filter (bucket : Bkt) fields typObject filter :
  fields ≠ [] →
  (matchObject bucket fields typObject (Some filter)).2 = Ok true
  ↔ ∃ fieldValues,
      (matchObject_range bucket fields typObject ∅).2 = Ok fieldValues
      ∧ filter fieldValues = true.
Proof.
  intros Hf. unfold matchObject. rewrite decide_False by (by destruct fields).
  destruct (matchObject_range bucket fields typObject ∅) as [t [fv|e|msg]];
    simpl.
  - split; [intros [= ?]; by exists fv | by intros (? & [= <-] & ->)].
  - split; [done | by intros (? & ? & _)].
  - split; [done | by intros (? & ? & _)].
Qed.

End filter_selects.

(** *** A scan without a filter returns every record *)

Section scan_without_filter.
Context `{Codec}.

(** When the scan returns no error, the record of every bucket that matched
    is in the result. *)
Lemma LoadValuesByFilter_matching_returned (root : Bkt) typ fields typObject
    filter key bucket :
  (LoadValuesByFilter root typ fields typObject filter).2.2 = Ok tt →
  getBucket root typ key = Some bucket →
  (matchObject bucket fields typObject filter).2 = Ok true →
  ∃ obj, deserializeObject bucket typObject = Ok obj
         ∧ (LoadValuesByFilter root typ fields typObject filter).2.1 !! key
           = Some obj.
Proof.
  unfold LoadValuesByFilter, loadValuesByFilter, getBucket.
  destruct (tx_Bucket root typ) as [typeBucket|] eqn:Htb; [|done].
  intros Hok Hb Hm.
  assert (key ∈ getKeys typeBucket) as Hin.
  { apply elem_of_ForEach_keys. unfold bolt.Bucket in Hb.
    destruct (typeBucket !! key); [by eexists | done]. }
  destruct (decide (length (getKeys typeBucket) = 0%nat)) as [Hlen|Hlen].
  { destruct (getKeys typeBucket); [by apply elem_of_nil in Hin | done]. }
  by eapply loadValuesByFilter_range_selected.
Qed.

(** C10: with an empty field list or a nil filter every record under the
    type bucket matches, no field is read and the filter is never called:
    the scan is the full load of the type, warnings included.  When it
    returns no error, every key that has a record bucket under the type is
    in the result with the record deserialized from that bucket, and the
    result holds nothing else. *)
Theorem LoadValuesByFilter_without_filter (root : Bkt) typ fields typObject filter :
  fields = [] ∨ filter = None →
  LoadValuesByFilter root typ fields typObject filter
  = LoadValuesAll root typ typObject
  ∧ (∀ fieldValues,
       CallFilter fieldValues
       ∉ (LoadValuesByFilter root typ fields typObject filter).1)
  ∧ (∀ bucket, matchObject bucket fields typObject filter = ([], Ok true))
  ∧ ((LoadValuesByFilter root typ fields typObject filter).2.2 = Ok tt →
     (∀ key bucket,
        getBucket root typ key = Some bucket →
        ∃ obj, deserializeObject bucket typObject = Ok obj
               ∧ (LoadValuesByFilter root typ fields typObject filter).2.1 !! key
                 = Some obj)
     ∧ (∀ key obj,
          (LoadValuesByFilter root typ fields typObject filter).2.1 !! key
          = Some obj →
          ∃ bucket, getBucket root typ key = Some bucket
                    ∧ deserializeObject bucket typObject = Ok obj)).
Proof.
  intros Hno.
  assert (LoadValuesByFilter root typ fields typObject filter
          = LoadValuesAll root typ typObject) as E.
  { unfold LoadValuesByFilter, loadValuesByFilter, LoadValuesAll.
    destruct (tx_Bucket root typ) as [typeBucket|]; [|done].
    case_decide; [done|]. by apply loadValuesByFilter_range_no_filter. }
  split; [done|]. split; [|split].
  - intros fv. rewrite E. unfold LoadValuesAll.
    destruct (tx_Bucket root typ) as [typeBucket|]; [|apply not_elem_of_nil].
    case_decide; [apply not_elem_of_nil|]. apply LoadValuesAll_range_no_call.
  - intros bucket. by apply matchObject_no_filter.
  - intros Hok. split.
    + intros key bucket Hb.
      apply (LoadValuesByFilter_matching_returned _ _ _ _ _ _ _ Hok Hb).
      by rewrite matchObject_no_filter.
    + intros key obj Hsel.
      apply (LoadValuesByFilter_selects _ _ _ _ _ _ _ Hok) in Hsel
        as (bucket & Hb & _ & Hde).
      by exists bucket.
Qed.

End scan_without_filter.

(** ** The handler on the small store *)

Section examples.
#[local] Existing Instance refcodec.codec.

Ltac compute_eq := vm_compute; reflexivity.
Ltac decide_by_compute :=
  refine (bool_decide_unpack _ _); vm_compute; exact I.

(** The scenario of §8: save, load with a missing key, count, update one
    field, load again, delete, load. *)
Example scenario_load :
  LoadValues demo.store1 "svc" ["a"; "missing"] demo.Service
  = ({["a" := demo.svcA]}, Ok tt).
Proof. compute_eq. Qed.

Example scenario_count : CountValues demo.store1 "svc" = (1, Ok tt).
Proof. compute_eq. Qed.

Example scenario_update :
  LoadValues (UpdateValue demo.store1 "svc" "a" [("Name", VString "Y")]).1
    "svc" ["a"] demo.Service
  = ({["a" := [("ID", VString "a"); ("Name", VString "Y");
               ("Meta", VStrMap (Some {["k1" := "v1"]}))]]}, Ok tt).
Proof. compute_eq. Qed.

Example scenario_delete :
  LoadValues (DeleteValues demo.store1 "svc" ["a"]).1 "svc" ["a"] demo.Service
  = (∅, Ok tt).
Proof. compute_eq. Qed.

(** C3: the record "b" of the small store has no entry for [Meta] (its map
    is empty, so no nested bucket was written).  A filter over [Meta] that
    asks whether the field is in its map is called with [Meta] mapped to
    the nil map, answers true, and the record is selected: the field that
    resolves to no value is not left out of the map.  On the map without
    the field the same filter answers false. *)
Theorem LoadValuesByFilter_maps_absent_field :
  default ∅ (getBucket demo.store2 "svc" "b") !! toBucketField "Meta" = None
  ∧ LoadValuesByFilter demo.store2 "svc" ["Meta"] demo.Service (Some demo.hasMeta)
    = ([CallFilter {["Meta" := VStrMap (Some {["k1" := "v1"]})]};
        CallFilter {["Meta" := VStrMap None]}],
       ({["a" := demo.svcA; "b" := demo.svcB]}, Ok tt))
  ∧ demo.hasMeta ∅ = false.
Proof. split; [|split]; compute_eq. Qed.

(** C8: an update of the existing record "a" with a supported property and
    a property holding a map that is no [map[string]string] panics on the
    type assertion of the [reflect.Map] case, in whichever order the two
    are visited, and the transaction is rolled back: the unsupported
    property is not skipped and the supported one is not written. *)
Theorem UpdateValue_other_map_panics :
  is_Some (getBucket demo.store1 "svc" "a")
  ∧ UpdateValue demo.store1 "svc" "a"
      [("Name", VString "Y"); ("Meta", VOther KMap)]
    = (demo.store1, Panic "interface conversion")
  ∧ UpdateValue demo.store1 "svc" "a"
      [("Meta", VOther KMap); ("Name", VString "Y")]
    = (demo.store1, Panic "interface conversion").
Proof. split; [by eexists; compute_eq | split; compute_eq]. Qed.

(** C6, as stated, fails: [Owner] is not a field of the prototype, yet the
    read of the string stored under it returns the string and no error. *)
Lemma getFieldObject_unknown_field_no_error :
  FieldByName demo.Service "Owner" = None
  ∧ getFieldObject demo.bucketC demo.Service "Owner"
    = ([], Ok (VString "user1")).
Proof. split; compute_eq. Qed.

Lemma UpdateValue_missing_is_noop_witness :
  UpdateValue demo.store1 "svc" "missing" [("Name", VString "Y")]
  = (demo.store1, Ok tt).
Proof.
  apply UpdateValue_missing_is_noop. right. eexists. split; compute_eq.
Defined.

Lemma getFieldObject_unrecognized_tag_witness :
  bolt.Get demo.bucketD (toBucketField "Future") = Some [xff; x01]
  ∧ (xff ∉ recognizedTags)
  ∧ getFieldObject demo.bucketD demo.Service "Future"
    = ([LogUnrecognizedField "Future" xff], Ok VNil).
Proof.
  assert (xff ∉ recognizedTags) as Htag by decide_by_compute.
  split; [reflexivity|]. split; [done|].
  apply (getFieldObject_unrecognized_tag demo.bucketD demo.Service "Future" xff [x01]);
    [reflexivity | exact Htag].
Defined.

Lemma getFieldObject_shape_mismatch_witness :
  (typeProtobuf ∉ [typeString; typeBool; typeTime])
  ∧ bolt.Get demo.bucketD (toBucketField "Proto") = Some [x04; x0a]
  ∧ getFieldObject demo.bucketD demo.Service "Proto"
    = ([], Err (ErrFieldNotFound "Proto"))
  ∧ ∃ t value,
      getFieldObject {["Proto" := Leaf [x01; x61]]} demo.Service "Proto"
      = (t, Ok value).
Proof.
  assert (typeProtobuf ∉ [typeString; typeBool; typeTime]) as Htags
    by decide_by_compute.
  split; [done|]. split; [reflexivity|].
  assert (bolt.Get demo.bucketD (toBucketField "Proto") = Some [x04; x0a])
    as Hget by reflexivity.
  destruct (getFieldObject_shape_mismatch demo.bucketD demo.Service "Proto"
              [x0a] Htags Hget) as (Hmissing & _ & Hother).
  split; [apply Hmissing; reflexivity|].
  apply (Hother {["Proto" := Leaf [x01; x61]]} demo.Service).
  intros payload' Hp. vm_compute in Hp. discriminate.
Defined.

Lemma LoadValuesByFilter_without_filter_witness :
  LoadValuesByFilter demo.store2 "svc" [] demo.Service (Some demo.hasMeta)
  = LoadValuesAll demo.store2 "svc" demo.Service
  ∧ ∃ obj,
      deserializeObject (default ∅ (getBucket demo.store2 "svc" "b")) demo.Service
      = Ok obj
      ∧ (LoadValuesByFilter demo.store2 "svc" [] demo.Service
           (Some demo.hasMeta)).2.1 !! "b" = Some obj.
Proof.
  destruct (LoadValuesByFilter_without_filter demo.store2 "svc" []
              demo.Service (Some demo.hasMeta)) as (Hall & _ & _ & Hevery).
  { left. reflexivity. }
  split; [exact Hall|].
  assert ((LoadValuesByFilter demo.store2 "svc" [] demo.Service
             (Some demo.hasMeta)).2.2 = Ok tt) as Hok by compute_eq.
  apply (proj1 (Hevery Hok) "b").
  destruct (getBucket demo.store2 "svc" "b") as [bucket|] eqn:Hb; [reflexivity|].
  vm_compute in Hb. discriminate.
Defined.

Lemma LoadValues_omits_absent_keys_witness :
  LoadValues demo.store2 "svc" ["a"; "missing"] demo.Service
  = ({["a" := demo.svcA]}, Ok tt)
  ∧ ({["a" := demo.svcA]} : gmap string object) !! "missing" = None.
Proof.
  assert (LoadValues demo.store2 "svc" ["a"; "missing"] demo.Service
          = ({["a" := demo.svcA]}, Ok tt)) as Hrun by compute_eq.
  split; [exact Hrun|].
  apply (LoadValues_omits_absent_keys _ _ _ _ _ _ Hrun). compute_eq.
Defined.

Lemma SaveValue_replaces_record_witness :
  SaveValue demo.store1 "svc" "a" demo.svcB
  = ((SaveValue demo.store1 "svc" "a" demo.svcB).1, Ok tt)
  ∧ ∃ bucket buffers,
      serializeObject ∅ demo.svcB = Ok (bucket, buffers)
      ∧ getBucket (SaveValue demo.store1 "svc" "a" demo.svcB).1 "svc" "a"
        = Some ((Leaf <$> buffers) ∪ bucket).
Proof.
  assert (SaveValue demo.store1 "svc" "a" demo.svcB
          = ((SaveValue demo.store1 "svc" "a" demo.svcB).1, Ok tt)) as Hrun
    by compute_eq.
  split; [exact Hrun|].
  destruct (SaveValue_replaces_record _ _ _ _ _ Hrun)
    as (bucket & buffers & Hser & Hget & _).
  exists bucket, buffers. by split.
Defined.

Lemma CountValues_counts_records_witness :
  CountValues demo.store2 "svc" = (2, Ok tt)
  ∧ ∃ root'',
      DeleteValues demo.store2 "svc" ["a"] = (root'', Ok tt)
      ∧ CountValues root'' "svc" = (2 - 1, Ok tt).
Proof.
  assert (CountValues ∅ "svc" = (0, Ok tt)) as Hzero by reflexivity.
  assert (NoDup ([("a", demo.svcA); ("b", demo.svcB)].*1)) as Hnd
    by decide_by_compute.
  assert (saveEach ∅ "svc" [("a", demo.svcA); ("b", demo.svcB)]
          = Some demo.store2) as Hsave by compute_eq.
  assert (NoDup ["a"]) as Hndk by decide_by_compute.
  assert (["a"] ⊆ [("a", demo.svcA); ("b", demo.svcB)].*1) as Hsub
    by decide_by_compute.
  destruct (CountValues_counts_records _ _ _ _ _ Hzero Hnd Hsave Hndk Hsub)
    as (Hcount & Hdel & _).
  split; [exact Hcount | exact Hdel].
Defined.

Lemma UpdateValue_leaves_other_fields_witness :
  ∃ bucket',
    getBucket (UpdateValue demo.store1 "svc" "a" [("Name", VString "Y")]).1
      "svc" "a" = Some bucket'
    ∧ bucket' !! toBucketField "Meta"
      = default ∅ (getBucket demo.store1 "svc" "a") !! toBucketField "Meta".
Proof.
  assert (getBucket demo.store1 "svc" "a"
          = Some (default ∅ (getBucket demo.store1 "svc" "a"))) as Hb
    by compute_eq.
  assert (UpdateValue demo.store1 "svc" "a" [("Name", VString "Y")]
          = ((UpdateValue demo.store1 "svc" "a" [("Name", VString "Y")]).1,
             Ok tt)) as Hrun by compute_eq.
  assert ("Meta" ∉ [("Name", VString "Y")].*1) as Hout by decide_by_compute.
  destruct (UpdateValue_leaves_other_fields _ _ _ _ _ _ _
              refcodec_mapper_inj refcodec_rawMapConfined Hb Hrun)
    as (bucket' & Hb' & _ & Hfield).
  exists bucket'. split; [exact Hb'|]. apply (Hfield "Meta" Hout).
Defined.

End examples.

(** ** Further properties of the handler *)

(** *** Save: what it needs, what it leaves alone, how saves compose *)

Section save_more.
Context `{Codec}.

Lemma getBucket_typeBucketOf (root : Bkt) typ key :
  getBucket root typ key = bolt.Bucket (typeBucketOf root typ) key.
Proof.
  unfold getBucket, typeBucketOf. by destruct (tx_Bucket root typ).
Qed.

Lemma typeBucketOf_insert (root : Bkt) typ typeBucket :
  typeBucketOf (<[typ := Sub typeBucket]> root) typ = typeBucket.
Proof. unfold typeBucketOf. by rewrite tx_Bucket_insert. Qed.

Lemma typeBucketOf_insert_ne (root : Bkt) typ typ' typeBucket :
  typ ≠ typ' →
  typeBucketOf (<[typ := Sub typeBucket]> root) typ' = typeBucketOf root typ'.
Proof. intros. unfold typeBucketOf. by rewrite tx_Bucket_insert_ne. Qed.

(** What a save needs of the store: names that are not empty, and no plain
    value in the way of the type bucket or of the record bucket. *)
Lemma SaveValue_tx_needs typ key value (root root' : Bkt) :
  SaveValue_tx typ key value root = Ok root' →
  String.length typ ≠ 0%nat
  ∧ String.length key ≠ 0%nat
  ∧ (∀ v, root !! typ ≠ Some (Leaf v))
  ∧ (∀ v, typeBucketOf root typ !! key ≠ Some (Leaf v)).
Proof.
  intros Hrun. pose proof (SaveValue_tx_ok _ _ _ _ _ Hrun) as (_ & _ & _ & _ & Hleaf).
  unfold SaveValue_tx in Hrun.
  apply bind_Ok in Hrun as ([root1 typBucket] & Hc & Hrun).
  apply bind_Ok in Hrun as (tb1 & _ & Hrun).
  apply bind_Ok in Hrun as (tb2 & Hcreate & _).
  unfold tx_CreateBucketIfNotExists, bolt.CreateBucketIfNotExists,
    bolt.CreateBucket in Hc, Hcreate.
  destruct (decide (String.length typ = 0%nat)); [done|].
  destruct (decide (String.length key = 0%nat)); [done|].
  repeat split; try done.
  intros v Hv. by rewrite Hv in Hc.
Qed.

(** The steps of a save, when nothing is in its way. *)
Lemma SaveValue_tx_run typ key value (root : Bkt) bucket buffers :
  String.length typ ≠ 0%nat →
  String.length key ≠ 0%nat →
  (∀ v, root !! typ ≠ Some (Leaf v)) →
  (∀ v, typeBucketOf root typ !! key ≠ Some (Leaf v)) →
  serializeObject ∅ value = Ok (bucket, buffers) →
  SaveValue_tx typ key value root
  = (rec ← (if decide (0 < size buffers)%nat
            then putBuffers bucket (map_to_list buffers)
            else Ok bucket);
     Ok (<[typ := Sub (<[key := Sub rec]> (typeBucketOf root typ))]> root)).
Proof.
  intros Htyp Hkey Hroot Htb Hser. unfold SaveValue_tx.
  assert (∃ root1, tx_CreateBucketIfNotExists root typ
                   = Ok (root1, typeBucketOf root typ)
                   ∧ ∀ x, <[typ := x]> root1 = <[typ := x]> root)
    as (root1 & -> & Hroot1).
  { unfold tx_CreateBucketIfNotExists, bolt.CreateBucketIfNotExists,
      bolt.CreateBucket, typeBucketOf, tx_Bucket, bolt.Bucket.
    rewrite decide_False by done.
    destruct (root !! typ) as [[v|child]|] eqn:E; simpl.
    - by destruct (Hroot v).
    - by exists root.
    - eexists. split; [done|]. intros x. apply insert_insert_eq. }
  cbn [mbind outcome_bind].
  set (tb := typeBucketOf root typ) in *.
  assert (∃ tb1, (match bolt.Bucket tb key with
                  | Some _ => bolt.DeleteBucket tb key
                  | None => Ok tb
                  end) = Ok tb1
                 ∧ tb1 !! key = None
                 ∧ ∀ x, <[key := x]> tb1 = <[key := x]> tb)
    as (tb1 & -> & Hnone & Htb1).
  { unfold bolt.Bucket, bolt.DeleteBucket.
    destruct (tb !! key) as [[v|child]|] eqn:E.
    - by destruct (Htb v).
    - exists (delete key tb). rewrite lookup_delete_eq. split; [done|].
      split; [done|]. intros x. apply insert_delete_eq.
    - by exists tb. }
  cbn [mbind outcome_bind]. unfold bolt.CreateBucket.
  rewrite decide_False by done. rewrite Hnone. cbn [mbind outcome_bind].
  rewrite Hser. cbn [mbind outcome_bind].
  destruct (if decide (0 < size buffers)%nat
            then putBuffers bucket (map_to_list buffers)
            else Ok bucket) as [rec|e|msg]; [|done..].
  cbn [mbind outcome_bind]. unfold bolt.store_child.
  by rewrite insert_insert_eq, Htb1, Hroot1.
Qed.

(** X1: a load of the key just saved deserializes exactly the record bucket
    the save wrote: it returns that one record, or the error of its
    deserialization with an empty map. *)
Theorem SaveValue_then_LoadValues (root : Bkt) typ key value root' typObject :
  SaveValue root typ key value = (root', Ok tt) →
  ∃ bucket buffers,
    serializeObject ∅ value = Ok (bucket, buffers)
    ∧ LoadValues root' typ [key] typObject
      = match deserializeObject ((Leaf <$> buffers) ∪ bucket) typObject with
        | Ok obj => ({[key := obj]}, Ok tt)
        | Err e => (∅, Err e)
        | Panic msg => (∅, Panic msg)
        end.
Proof.
  intros Hrun. apply SaveValue_ok, SaveValue_tx_ok in Hrun
    as (bucket & buffers & Hser & -> & _).
  exists bucket, buffers. split; [done|].
  unfold LoadValues. cbn [length decide loadValues].
  rewrite decide_False by done. cbn [loadValues].
  rewrite getBucket_insert.
  by destruct (deserializeObject _ typObject).
Qed.

Lemma SaveValue_other_records (root : Bkt) typ key value typ' key' :
  typ' ≠ typ ∨ key' ≠ key →
  getBucket (SaveValue root typ key value).1 typ' key' = getBucket root typ' key'.
Proof.
  intros Hne. destruct (SaveValue root typ key value) as [root' r] eqn:Hrun.
  simpl. destruct r as [[]|e|msg].
  2,3: unfold SaveValue, db_Update in Hrun;
       destruct (SaveValue_tx typ key value root); by injection Hrun as <-.
  apply SaveValue_ok, SaveValue_tx_ok in Hrun
    as (bucket & buffers & _ & -> & _).
  rewrite !getBucket_typeBucketOf.
  destruct (decide (typ = typ')) as [<-|Htyp].
  - rewrite typeBucketOf_insert. unfold bolt.Bucket.
    rewrite lookup_insert_ne; [done|]. intros ->. by destruct Hne.
  - by rewrite typeBucketOf_insert_ne.
Qed.

(** X2: a save touches the record bucket under its own type and key and
    nothing else: every other record, of this type and of every other, is
    what it was, whether the save succeeds or fails. *)
Theorem SaveValue_leaves_other_records (root : Bkt) typ key value typ' key' :
  typ' ≠ typ ∨ key' ≠ key →
  getBucket (SaveValue root typ key value).1 typ' key' = getBucket root typ' key'.
Proof. apply SaveValue_other_records. Qed.

(** X3: a save with an empty type name or an empty key fails with bolt's
    "bucket name required", whatever the record is, and leaves the store as
    it was. *)
Theorem SaveValue_rejects_empty_names (root : Bkt) typ key value :
  typ = "" ∨ key = "" →
  (∀ v, root !! typ ≠ Some (Leaf v)) →
  SaveValue root typ key value = (root, Err ErrBucketNameRequired).
Proof.
  intros Hempty Hroot. unfold SaveValue, db_Update, SaveValue_tx.
  destruct (decide (typ = "")) as [->|Htyp]; [done|].
  destruct Hempty as [? | ->]; [done|].
  unfold tx_CreateBucketIfNotExists, bolt.CreateBucketIfNotExists,
    bolt.CreateBucket.
  rewrite decide_False by (by destruct typ).
  destruct (root !! typ) as [[v|child]|] eqn:E.
  - by destruct (Hroot v).
  - cbn [mbind outcome_bind]. unfold bolt.Bucket, bolt.DeleteBucket.
    rewrite ?E. cbn [default from_option id].
    by destruct (child !! "") as [[v|c]|].
  - cbn [mbind outcome_bind]. by unfold bolt.Bucket.
Qed.

(** X4: the last save wins.  When a record was saved under a key and a
    second save under the same key succeeds, the store is the one the second
    save alone gives: the first has left no trace. *)
Theorem SaveValue_last_write_wins (root : Bkt) typ key value1 value2 root1 root2 :
  SaveValue root typ key value1 = (root1, Ok tt) →
  SaveValue root1 typ key value2 = (root2, Ok tt) →
  SaveValue root typ key value2 = (root2, Ok tt).
Proof.
  intros Hrun1%SaveValue_ok Hrun2%SaveValue_ok. apply SaveValue_ok.
  destruct (SaveValue_tx_needs _ _ _ _ _ Hrun1) as (Htyp & Hkey & Hroot & Htb).
  destruct (SaveValue_tx_needs _ _ _ _ _ Hrun2) as (_ & _ & Hroot2 & Htb2).
  apply SaveValue_tx_ok in Hrun1 as (bucket1 & buffers1 & _ & -> & _).
  pose proof (SaveValue_tx_ok _ _ _ _ _ Hrun2) as (bucket2 & buffers2 & Hser & _).
  rewrite (SaveValue_tx_run _ _ _ _ _ _ Htyp Hkey Hroot2 Htb2 Hser) in Hrun2.
  rewrite (SaveValue_tx_run _ _ _ _ _ _ Htyp Hkey Hroot Htb Hser).
  apply bind_Ok in Hrun2 as (rec & -> & Hrun2). cbn [mbind outcome_bind].
  injection Hrun2 as <-.
  by rewrite typeBucketOf_insert, !insert_insert_eq.
Qed.

End save_more.

(** *** Delete *)

Section delete_more.
Context `{Codec}.

Lemma loadValues_absent (root : Bkt) typ keys typObject values :
  (∀ key, key ∈ keys → getBucket root typ key = None) →
  loadValues root typ keys typObject values = (values, Ok tt).
Proof.
  induction keys as [|k rest IH]; intros Habs; [done|]. cbn [loadValues].
  rewrite (Habs k) by left. apply IH. intros key Hin. apply Habs. by right.
Qed.

(** X5: DeleteValues never fails.  It removes the record buckets of the
    keys it is given, so that a load of these keys returns the empty map,
    and it leaves every other record of the store as it was; a key with no
    record is passed over. *)
Theorem DeleteValues_removes_named (root : Bkt) typ keys typObject :
  ∃ root',
    DeleteValues root typ keys = (root', Ok tt)
    ∧ (∀ key, key ∈ keys → getBucket root' typ key = None)
    ∧ (∀ typ' key', typ' ≠ typ ∨ key' ∉ keys →
         getBucket root' typ' key' = getBucket root typ' key')
    ∧ LoadValues root' typ keys typObject = (∅, Ok tt).
Proof.
  destruct (DeleteValues_ok root typ keys) as (root' & Hrun & Hlook & _ & Hother).
  exists root'. split; [done|].
  assert (∀ key, key ∈ keys → getBucket root' typ key = None) as Hgone.
  { intros key Hin. rewrite getBucket_typeBucketOf. unfold bolt.Bucket.
    rewrite Hlook, decide_True by done.
    by destruct (typeBucketOf root typ !! key) as [[v|c]|]. }
  split; [done|]. split.
  - intros typ' key' Hne. destruct (decide (typ = typ')) as [<-|Htyp].
    + destruct Hne as [?|Hout]; [done|].
      rewrite !getBucket_typeBucketOf. unfold bolt.Bucket.
      by rewrite Hlook, decide_False.
    + unfold getBucket. by rewrite Hother.
  - unfold LoadValues. case_decide; [done|]. by apply loadValues_absent.
Qed.

(** X6: DeleteValues is idempotent: deleting the same keys a second time
    returns no error and changes nothing. *)
Theorem DeleteValues_twice (root : Bkt) typ keys :
  DeleteValues (DeleteValues root typ keys).1 typ keys
  = ((DeleteValues root typ keys).1, Ok tt).
Proof.
  destruct (DeleteValues_ok root typ keys) as (root' & -> & Hlook & _ & _).
  cbn [fst].
  destruct (DeleteValues_ok root' typ keys) as (root'' & Hrun & Hlook' & Hnone & Hother).
  rewrite Hrun. f_equal. apply map_eq. intros typ'.
  assert (typeBucketOf root'' typ = typeBucketOf root' typ) as Etb.
  { apply map_eq. intros key. rewrite Hlook'. case_decide; [|done].
    rewrite Hlook, decide_True by done.
    by destruct (typeBucketOf root typ !! key) as [[v|c]|]. }
  unfold DeleteValues in Hrun. case_decide; [by injection Hrun as <-|].
  unfold db_Update, deleteValues in Hrun.
  destruct (tx_Bucket root' typ) as [tb|] eqn:E; [|by injection Hrun as <-].
  destruct (deleteValues_range_ok tb keys) as (tb' & Hr & _).
  rewrite Hr in Hrun. cbn in Hrun. injection Hrun as <-.
  unfold bolt.store_child in *. rewrite typeBucketOf_insert in Etb. subst tb'.
  unfold typeBucketOf in *. rewrite E. simpl.
  destruct (decide (typ = typ')) as [<-|Hne].
  - rewrite lookup_insert_eq. unfold tx_Bucket, bolt.Bucket in E.
    by destruct (root' !! typ) as [[v|c]|]; simplify_eq.
  - by rewrite lookup_insert_ne.
Qed.

End delete_more.

(** *** Load of a whole type *)

Section load_all.
Context `{Codec}.

Lemma LoadValuesAll_range_loadValues (root typeBucket : Bkt) typ keys typObject values :
  tx_Bucket root typ = Some typeBucket →
  (LoadValuesAll_range typeBucket typ keys typObject values).2
  = loadValues root typ keys typObject values.
Proof.
  intros Htb. revert values. induction keys as [|k rest IH]; intros values; [done|].
  cbn [LoadValuesAll_range loadValues]. unfold getBucket at 1. rewrite Htb.
  destruct (bolt.Bucket typeBucket k) as [bucket|]; [|apply IH].
  destruct (deserializeObject bucket typObject); [apply IH|done..].
Qed.

(** X7: LoadValuesAll returns the map and the error that LoadValues returns
    for the list of all keys of the type bucket, in key order; for a type
    that has no bucket it returns the empty map and no error. *)
Theorem LoadValuesAll_is_LoadValues_of_all_keys (root : Bkt) typ typObject :
  (LoadValuesAll root typ typObject).2
  = LoadValues root typ (getKeys (typeBucketOf root typ)) typObject
  ∧ (tx_Bucket root typ = None →
     LoadValuesAll root typ typObject = ([], (∅, Ok tt))).
Proof.
  split.
  - unfold LoadValuesAll, LoadValues, typeBucketOf.
    destruct (tx_Bucket root typ) as [typeBucket|] eqn:Htb; [|done]. simpl.
    case_decide; [done|]. by apply LoadValuesAll_range_loadValues.
  - intros Htb. unfold LoadValuesAll. by rewrite Htb.
Qed.

End load_all.

(** *** Partial update: what it writes, what it keeps *)

Section update_more.
Context `{Codec}.

Lemma UpdateValue_property_writes (bucket : Bkt) propKey propValue bucket' buf :
  UpdateValue_property bucket propKey propValue = Ok bucket' →
  encodeProperty propValue = Some buf →
  bucket' !! toBucketField propKey = Some (Leaf buf).
Proof.
  unfold UpdateValue_property.
  destruct propValue as [|s|b|w n|w n|m|m|t|kind]; simpl; try done.
  - intros ->%Put_ok [= <-]. apply lookup_insert_eq.
  - intros ->%Put_ok [= <-]. apply lookup_insert_eq.
  - rewrite decide_True by done. intros ->%Put_ok [= <-]. apply lookup_insert_eq.
  - rewrite decide_True by done. intros ->%Put_ok [= <-]. apply lookup_insert_eq.
  - destruct (encodeMessageBuffer m) as [msgBuf|e|msg]; [|done..]. simpl.
    intros ->%Put_ok [= <-]. apply lookup_insert_eq.
  - intros ->%Put_ok [= <-]. apply lookup_insert_eq.
Qed.

Lemma UpdateValue_range_writes (bucket : Bkt) properties bucket' propKey propValue buf :
  Inj (=) (=) toBucketField →
  rawMapConfined →
  NoDup properties.*1 →
  UpdateValue_range bucket properties = Ok bucket' →
  (propKey, propValue) ∈ properties →
  encodeProperty propValue = Some buf →
  bucket' !! toBucketField propKey = Some (Leaf buf).
Proof.
  intros Hinj Hraw. revert bucket.
  induction properties as [|[k v] rest IH]; intros bucket Hnd Hrun Hin Henc.
  { by apply elem_of_nil in Hin. }
  rewrite fmap_cons in Hnd. apply NoDup_cons in Hnd as [Hk Hnd].
  cbn [UpdateValue_range] in Hrun.
  apply bind_Ok in Hrun as (bucket1 & Hstep & Hrun).
  apply elem_of_cons in Hin as [[= -> ->]|Hin]; [|by eapply IH].
  rewrite (UpdateValue_range_frame _ _ _ _ Hraw Hrun).
  - by eapply UpdateValue_property_writes.
  - intros (k' & Heq & Hin')%list_elem_of_fmap. apply Hinj in Heq as <-. done.
Qed.

(** X8: after an update that returns no error, the entry of every property
    of a scalar or message kind is the tagged buffer of the value it was
    given.  (The property map has one value per name; the field mapper is
    injective and a map write is confined to its own key: the contract of
    the codec.) *)
Theorem UpdateValue_writes_properties (root : Bkt) typ key properties root' bucket :
  Inj (=) (=) toBucketField →
  rawMapConfined →
  NoDup properties.*1 →
  getBucket root typ key = Some bucket →
  UpdateValue root typ key properties = (root', Ok tt) →
  ∃ bucket',
    getBucket root' typ key = Some bucket'
    ∧ ∀ propKey propValue buf,
        (propKey, propValue) ∈ properties →
        encodeProperty propValue = Some buf →
        bucket' !! toBucketField propKey = Some (Leaf buf)
        ∧ bolt.Get bucket' (toBucketField propKey) = Some buf.
Proof.
  intros Hinj Hraw Hnd Hb Hrun.
  assert (∃ bucket', getBucket root' typ key = Some bucket'
                     ∧ UpdateValue_range bucket properties = Ok bucket')
    as (bucket' & Hb' & Hrange).
  { pose proof Hb as Hb0.
    unfold UpdateValue, db_Update, UpdateValue_tx in Hrun. unfold getBucket in Hb.
    destruct (tx_Bucket root typ) as [typeBucket|]; [|done]. rewrite Hb in Hrun.
    destruct (decide (length properties = 0%nat)) as [Hlen|Hlen].
    - injection Hrun as <-. exists bucket. split; [done|]. by destruct properties.
    - destruct (UpdateValue_range bucket properties) as [bucket'|e|msg] eqn:Hr;
        [|done..].
      exists bucket'. cbn in Hrun. injection Hrun as <-.
      split; [apply getBucket_insert | done]. }
  exists bucket'. split; [done|].
  intros propKey propValue buf Hin Henc.
  assert (bucket' !! toBucketField propKey = Some (Leaf buf)) as E
    by (by eapply UpdateValue_range_writes).
  split; [done|]. unfold bolt.Get. by rewrite E.
Qed.

Lemma size_same_keys (b1 b2 : Bkt) :
  (∀ key, is_Some (b1 !! key) ↔ is_Some (b2 !! key)) → size b1 = size b2.
Proof.
  intros Hdom. rewrite <- !size_dom. f_equal. apply set_eq. intros key.
  by rewrite !elem_of_dom.
Qed.

(** X9: an update creates no record and no type and removes none: in
    every type, whatever the outcome of the update, the keys that hold a
    record and the value of CountValues are what they were. *)
Theorem UpdateValue_keeps_population (root : Bkt) typ key properties typ' :
  CountValues (UpdateValue root typ key properties).1 typ' = CountValues root typ'
  ∧ ∀ key', is_Some (getBucket (UpdateValue root typ key properties).1 typ' key')
            ↔ is_Some (getBucket root typ' key').
Proof.
  destruct (UpdateValue root typ key properties) as [root' r] eqn:Hrun. cbn [fst].
  assert (root' = root
          ∨ ∃ typeBucket bucket bucket',
              tx_Bucket root typ = Some typeBucket
              ∧ typeBucket !! key = Some (Sub bucket)
              ∧ root' = <[typ := Sub (<[key := Sub bucket']> typeBucket)]> root)
    as [-> | (typeBucket & bucket & bucket' & Htb & Hkey & ->)]; [|done|].
  { destruct (getBucket root typ key) as [bucket|] eqn:Hb.
    - destruct (UpdateValue_cases _ _ _ _ _ _ _ Hb Hrun)
        as [-> | (typeBucket & bucket' & Htb & _ & ->)]; [by left|].
      right. exists typeBucket, bucket, bucket'. split; [done|]. split; [|done].
      unfold getBucket in Hb. rewrite Htb in Hb. unfold bolt.Bucket in Hb.
      by destruct (typeBucket !! key) as [[v|c]|]; simplify_eq.
    - left. unfold UpdateValue, db_Update in Hrun.
      rewrite UpdateValue_tx_missing in Hrun by done. by injection Hrun as <-. }
  destruct (decide (typ = typ')) as [<-|Hne].
  - split.
    + rewrite !CountValues_typeBucketOf, typeBucketOf_insert. unfold typeBucketOf.
      rewrite Htb. simpl. do 2 f_equal. apply size_same_keys. intros key'.
      destruct (decide (key = key')) as [<-|Hk].
      * rewrite lookup_insert_eq, Hkey. split; by eexists.
      * by rewrite lookup_insert_ne.
    + intros key'. rewrite !getBucket_typeBucketOf, typeBucketOf_insert.
      unfold typeBucketOf. rewrite Htb. simpl. unfold bolt.Bucket.
      destruct (decide (key = key')) as [<-|Hk].
      * rewrite lookup_insert_eq, Hkey. split; by eexists.
      * by rewrite lookup_insert_ne.
  - split.
    + by rewrite !CountValues_typeBucketOf, typeBucketOf_insert_ne.
    + intros key'. by rewrite !getBucket_typeBucketOf, typeBucketOf_insert_ne.
Qed.

Lemma UpdateValue_range_skip (bucket : Bkt) before propKey kind rest :
  kind ∉ [KString; KBool; KMap] →
  (∀ w, kind ≠ KInt w ∧ kind ≠ KUint w) →
  UpdateValue_range bucket (before ++ (propKey, VOther kind) :: rest)
  = UpdateValue_range bucket (before ++ rest).
Proof.
  intros Hk Hw. revert bucket.
  induction before as [|[k v] before IH]; intros bucket.
  - cbn [app UpdateValue_range]. by rewrite UpdateValue_property_no_case.
  - cbn [app UpdateValue_range].
    destruct (UpdateValue_property bucket k v) as [bucket1|e|msg]; [|done..].
    apply IH.
Qed.

(** X10: a property whose kind no case of the switch takes (a float, a
    slice, a pointer that is no message, a struct that is no time, ...) is
    passed over: the update does what it does without that property,
    wherever the property comes in the range. *)
Theorem UpdateValue_skips_kinds_without_case (root : Bkt) typ key before propKey kind rest :
  kind ∉ [KString; KBool; KMap] →
  (∀ w, kind ≠ KInt w ∧ kind ≠ KUint w) →
  UpdateValue root typ key (before ++ (propKey, VOther kind) :: rest)
  = UpdateValue root typ key (before ++ rest).
Proof.
  intros Hk Hw. unfold UpdateValue, db_Update, UpdateValue_tx.
  destruct (tx_Bucket root typ) as [typeBucket|] eqn:Htb; [|done].
  destruct (bolt.Bucket typeBucket key) as [bucket|] eqn:Hb; [|done].
  rewrite decide_False by (rewrite length_app; simpl; lia).
  rewrite UpdateValue_range_skip by done.
  case_decide as Hlen; [|done].
  destruct before; [|done]. destruct rest; [|done]. cbn.
  f_equal. unfold bolt.store_child.
  unfold tx_Bucket, bolt.Bucket in Htb, Hb.
  destruct (root !! typ) as [[v|tb]|] eqn:E; simplify_eq.
  destruct (typeBucket !! key) as [[v|b]|] eqn:E'; simplify_eq.
  by rewrite (insert_id typeBucket key), insert_id.
Qed.

End update_more.

(** *** The order of the writes of a save *)

Section save_order.

(** X11: the buffers of a record are written in the order in which the Go
    runtime ranges over the map.  The order has no effect: the writes all
    succeed in one order exactly when they do in another, and end in the
    same bucket. *)
Theorem putBuffers_any_order (bucket : Bkt) buffers buffers' bucket' :
  NoDup buffers.*1 →
  buffers ≡ₚ buffers' →
  putBuffers bucket buffers = Ok bucket' ↔ putBuffers bucket buffers' = Ok bucket'.
Proof.
  intros Hnd Hperm. split; apply putBuffers_perm; try done.
  by rewrite <- Hperm.
Qed.

End save_order.

(** *** Load by filter *)

Section filter_more.
Context `{Codec}.

(** X12: when a filtered scan with fields to read and a filter returns no
    error, a key is in the result exactly when it has a record bucket on
    whose field map the filter answers true, and its value is the record
    deserialized from that bucket. *)
Theorem LoadValuesByFilter_returns_matches (root : Bkt) typ fields typObject filter key obj :
  fields ≠ [] →
  (LoadValuesByFilter root typ fields typObject (Some filter)).2.2 = Ok tt →
  (LoadValuesByFilter root typ fields typObject (Some filter)).2.1 !! key = Some obj
  ↔ ∃ bucket fieldValues,
      getBucket root typ key = Some bucket
      ∧ (matchObject_range bucket fields typObject ∅).2 = Ok fieldValues
      ∧ filter fieldValues = true
      ∧ deserializeObject bucket typObject = Ok obj.
Proof.
  intros Hf Hok. rewrite (LoadValuesByFilter_selects _ _ _ _ _ _ _ Hok). split.
  - intros (bucket & Hb & Hm & Hde).
    apply matchObject_filter in Hm as (fv & Hfv & Htrue); [|done].
    by exists bucket, fv.
  - intros (bucket & fv & Hb & Hfv & Htrue & Hde). exists bucket.
    split; [done|]. split; [|done]. apply matchObject_filter; [done|]. by exists fv.
Qed.

Lemma loadValuesByFilter_range_rejecting (typeBucket : Bkt) typ keys fields
    typObject filter values :
  fields ≠ [] →
  (∀ fieldValues, filter fieldValues = false) →
  (loadValuesByFilter_range typeBucket typ keys fields typObject
     (Some filter) values).2.1 = values.
Proof.
  intros Hf Hfalse. apply map_eq. intros key.
  apply loadValuesByFilter_range_frame.
  destruct (decide (key ∈ keys)); [|by left]. right.
  destruct (bolt.Bucket typeBucket key) as [bucket|] eqn:Hb; [|by left].
  right. exists bucket. split; [done|]. intros Hm.
  apply matchObject_filter in Hm as (fv & _ & Htrue); [|done].
  by rewrite Hfalse in Htrue.
Qed.

(** X13: a filter that answers false on every map selects nothing: the
    result of the scan is the empty map, also when the scan ends with an
    error. *)
Theorem LoadValuesByFilter_rejecting_filter (root : Bkt) typ fields typObject filter :
  fields ≠ [] →
  (∀ fieldValues, filter fieldValues = false) →
  (LoadValuesByFilter root typ fields typObject (Some filter)).2.1 = ∅.
Proof.
  intros Hf Hfalse. unfold LoadValuesByFilter, loadValuesByFilter.
  destruct (tx_Bucket root typ) as [typeBucket|]; [|done].
  case_decide; [done|]. by apply loadValuesByFilter_range_rejecting.
Qed.

End filter_more.

(** *** IterateFields *)

Section iterate.
Context `{Codec}.

Lemma processCalls_app (t1 t2 : trace) :
  processCalls (t1 ++ t2) = processCalls t1 ++ processCalls t2.
Proof. apply omap_app. Qed.

Lemma getFieldObject_no_call (bucket : Bkt) typObject field :
  processCalls (getFieldObject bucket typObject field).1 = [].
Proof.
  unfold getFieldObject.
  destruct (default [] (bolt.Get bucket (toBucketField field))) as [|typByte rest].
  { by destruct (reflectMapMsg bucket (toBucketField field)). }
  repeat case_decide; try done.
  destruct (reflectProtoMsg typObject field) as [msg|e|m]; [|done..]. simpl.
  by destruct (decodeMessageBuffer msg field (typByte :: rest)).
Qed.

Lemma IterateFields_range_calls (typeBucket : Bkt) typ keys field typObject t :
  IterateFields_range typeBucket typ keys field typObject = (t, Ok tt) →
  Forall2 (λ key fieldObj,
             ∃ bucket, bolt.Bucket typeBucket key = Some bucket
                       ∧ (getFieldObject bucket typObject field).2 = Ok fieldObj)
          (filter (λ key, is_Some (bolt.Bucket typeBucket key)) keys)
          (processCalls t).
Proof.
  revert t. induction keys as [|k rest IH]; intros t Hrun.
  { injection Hrun as <-. constructor. }
  cbn [IterateFields_range] in Hrun.
  destruct (bolt.Bucket typeBucket k) as [bucket|] eqn:Hb.
  - rewrite filter_cons_True by (by rewrite Hb).
    pose proof (getFieldObject_no_call bucket typObject field) as Hno.
    destruct (getFieldObject bucket typObject field) as [t1 [fieldObj|e|msg]]
      eqn:Hg; [|done..].
    cbn [fst] in Hno. cbn in Hrun.
    destruct (IterateFields_range typeBucket typ rest field typObject)
      as [t2 [[]|e|msg]] eqn:Hrest; cbn in Hrun; [|done..].
    injection Hrun as <-. rewrite processCalls_app, Hno.
    change (processCalls (CallProcess fieldObj :: t2))
      with (fieldObj :: processCalls t2).
    constructor; [|by apply IH].
    exists bucket. by rewrite Hg.
  - rewrite filter_cons_False by (rewrite Hb; by intros [? ?]).
    cbn in Hrun.
    destruct (IterateFields_range typeBucket typ rest field typObject)
      as [t2 [[]|e|msg]] eqn:Hrest; cbn in Hrun; [|done..].
    injection Hrun as <-.
    change (processCalls (LogBucketNotFound k typ :: t2)) with (processCalls t2).
    by apply IH.
Qed.

Lemma filter_all {A} (P : A → Prop) `{∀ x, Decision (P x)} (l : list A) :
  (∀ x, x ∈ l → P x) → filter P l = l.
Proof.
  induction l as [|x l IH]; intros Hall; [done|].
  rewrite filter_cons_True by (apply Hall; left).
  f_equal. apply IH. intros y Hy. apply Hall. by right.
Qed.

Lemma getKeys_sorted (bucket : Bkt) : Sorted bolt.key_le (getKeys bucket).
Proof.
  unfold getKeys, bolt.ForEach.
  assert (∀ l : list string, fst <$> ((λ k, (k, bolt.Get bucket k)) <$> l) = l) as E.
  { induction l as [|k l IH]; [done|]. rewrite !fmap_cons. simpl. by f_equal. }
  rewrite E. apply Sorted_merge_sort. intros x y. apply String.leb_total.
Qed.

(** X14: when IterateFields returns no error, the processor has been called
    once for each record bucket of the type, in ascending order of the keys,
    with the value the single-field read returns for that record; in a type
    bucket that holds record buckets only, the number of calls is the value
    of CountValues.  With a nil processor nothing is read and nothing is
    called. *)
Theorem IterateFields_calls_once_per_record (root : Bkt) typ field typObject
    typeBucket t :
  tx_Bucket root typ = Some typeBucket →
  IterateFields root typ field typObject false = (t, Ok tt) →
  Forall2 (λ key fieldObj,
             ∃ bucket, getBucket root typ key = Some bucket
                       ∧ (getFieldObject bucket typObject field).2 = Ok fieldObj)
          (filter (λ key, is_Some (getBucket root typ key)) (getKeys typeBucket))
          (processCalls t)
  ∧ Sorted bolt.key_le (getKeys typeBucket)
  ∧ (onlyRecordBuckets typeBucket →
     CountValues root typ = (Z.of_nat (length (processCalls t)), Ok tt))
  ∧ IterateFields root typ field typObject true = ([], Ok tt).
Proof.
  intros Htb Hrun.
  assert (Forall2 (λ key fieldObj,
             ∃ bucket, bolt.Bucket typeBucket key = Some bucket
                       ∧ (getFieldObject bucket typObject field).2 = Ok fieldObj)
          (filter (λ key, is_Some (bolt.Bucket typeBucket key)) (getKeys typeBucket))
          (processCalls t)) as Hcalls.
  { unfold IterateFields in Hrun. rewrite Htb in Hrun.
    case_decide as Hlen; [|by eapply IterateFields_range_calls].
    injection Hrun as <-. destruct (getKeys typeBucket); [constructor | done]. }
  assert (∀ key, getBucket root typ key = bolt.Bucket typeBucket key) as Hgb.
  { intros key. unfold getBucket. by rewrite Htb. }
  split; [|split; [|split]].
  - rewrite (list_filter_iff _ (λ key, is_Some (bolt.Bucket typeBucket key)))
      by (intros key; by rewrite Hgb).
    eapply Forall2_impl; [exact Hcalls|]. intros key fieldObj.
    by rewrite Hgb.
  - apply getKeys_sorted.
  - intros Hall. rewrite (CountValues_size _ _ _ Htb). do 2 f_equal.
    rewrite <- (Forall2_length _ _ _ Hcalls).
    rewrite <- length_ForEach, <- (length_fmap fst). fold (getKeys typeBucket).
    f_equal. symmetry. apply filter_all. intros key Hin.
    apply elem_of_ForEach_keys in Hin as [n Hn]. unfold bolt.Bucket.
    rewrite Hn. specialize (Hall _ _ Hn). destruct n; [done | by eexists].
  - done.
Qed.

End iterate.

(** *** Stores the handler can build *)

Section reachable_stores.
Context `{Codec}.

(** X15: in every store the handler's writes can build from the empty file,
    a type bucket holds record buckets and nothing else, and CountValues
    returns the number of record buckets of the type. *)
Theorem reachable_counts_records (root : Bkt) typ :
  reachable root →
  wellFormed root
  ∧ CountValues root typ
    = (Z.of_nat (size (recordBuckets (typeBucketOf root typ))), Ok tt).
Proof.
  intros Hreach.
  assert (wellFormed root) as Hwf.
  { induction Hreach.
    - apply wellFormed_empty.
    - by apply wellFormed_SaveValue.
    - by apply wellFormed_UpdateValue.
    - by apply wellFormed_DeleteValues. }
  split; [done|]. rewrite CountValues_typeBucketOf.
  by rewrite recordBuckets_all by (by apply onlyRecordBuckets_typeBucketOf).
Qed.

End reachable_stores.

(** *** A nested bucket read as a string map *)

Section read_map.

Lemma list_to_map_on_keys {A} (f : string → A) (l1 l2 : list string) :
  NoDup l1 → l1 ≡ₚ l2 →
  (list_to_map ((λ k, (k, f k)) <$> l1) : gmap string A)
  = list_to_map ((λ k, (k, f k)) <$> l2).
Proof.
  intros Hnd Hperm. apply list_to_map_proper; [|by rewrite Hperm].
  rewrite <- list_fmap_compose.
  by rewrite (list_fmap_ext (fst ∘ (λ k, (k, f k))) id l1), list_fmap_id.
Qed.

(** X16: the read of a map field returns the nil map exactly when the
    record bucket has no nested bucket under the field's key; otherwise it
    returns a map with the keys of the nested bucket, each mapped to the
    bytes stored under it. *)
Theorem reflectMapMsg_reads_nested_bucket (bucket : Bkt) bucketField :
  reflectMapMsg bucket bucketField
  = Ok ((λ sub : Bkt, rawString <$> sub) <$> bolt.Bucket bucket bucketField).
Proof.
  unfold reflectMapMsg.
  destruct (bolt.Bucket bucket bucketField) as [sub|]; [|done]. simpl.
  do 2 f_equal. unfold bolt.ForEach. rewrite <- list_fmap_compose.
  set (f := λ k, String.string_of_list_byte (default [] (bolt.Get sub k))).
  change (list_to_map ((λ k, (k, f k)) <$>
            merge_sort bolt.key_le (map fst (map_to_list sub)))
          = rawString <$> sub).
  rewrite (list_to_map_on_keys f _ (map_to_list sub).*1).
  2: { rewrite merge_sort_Permutation. apply NoDup_fst_map_to_list. }
  2: apply merge_sort_Permutation.
  rewrite <- list_fmap_compose.
  rewrite (list_fmap_ext _ (prod_map id rawString) (map_to_list sub)).
  - by rewrite list_to_map_fmap, list_to_map_to_list.
  - intros i [k n] Hin. apply list_elem_of_lookup_2, elem_of_map_to_list in Hin.
    cbn. f_equal. unfold f, bolt.Get. rewrite Hin. by destruct n.
Qed.

End read_map.

(** ** Properties of the namespace store *)

Section namespace_facts.
Context `{Codec}.

Lemma GetNamespace_cases (root : Bkt) name :
  GetNamespace root name
  = match getBucket root tblNameNamespace name with
    | None => Reply None
    | Some bucket =>
        match deserializeObject bucket namespaceShape with
        | Ok obj => Reply (Some obj)
        | Err e => HandlerError e
        | Panic msg => Panicked msg
        end
    end.
Proof.
  unfold GetNamespace, LoadValues. rewrite decide_False by done.
  cbn [loadValues].
  destruct (getBucket root tblNameNamespace name) as [bucket|]; [|done].
  destruct (deserializeObject bucket namespaceShape); [|done..].
  by rewrite lookup_insert_eq.
Qed.

Lemma AddNamespace_Reply (root : Bkt) namespace namespace' root' :
  AddNamespace root namespace = (namespace', (root', Reply tt)) →
  namespace' = validated namespace
  ∧ SaveValue root tblNameNamespace (model.Name namespace)
      (namespaceObject (validated namespace)) = (root', Ok tt).
Proof.
  unfold AddNamespace. case_decide; [done|]. fold (validated namespace).
  change (model.Name (validated namespace)) with (model.Name namespace).
  destruct (SaveValue root tblNameNamespace (model.Name namespace)
              (namespaceObject (validated namespace))) as [root1 [[]|e|msg]];
    [|done..].
  by intros [= <- <-].
Qed.

(** X17: when AddNamespace returns nil, the namespace is stored as valid,
    whatever [Valid] the caller had set, and the caller's struct is valid
    too; GetNamespace of its name then returns the record deserialized from
    what was written, or the error of that deserialization; and every other
    namespace is what it was. *)
Theorem AddNamespace_then_GetNamespace (root : Bkt) namespace namespace' root' :
  AddNamespace root namespace = (namespace', (root', Reply tt)) →
  model.Valid namespace' = true
  ∧ (∃ bucket buffers,
       serializeObject ∅ (namespaceObject namespace') = Ok (bucket, buffers)
       ∧ In ("Valid", VBool true) (namespaceObject namespace')
       ∧ GetNamespace root' (model.Name namespace)
         = match deserializeObject ((Leaf <$> buffers) ∪ bucket) namespaceShape with
           | Ok obj => Reply (Some obj)
           | Err e => HandlerError e
           | Panic msg => Panicked msg
           end)
  ∧ (∀ other, other ≠ model.Name namespace →
       getBucket root' tblNameNamespace other
       = getBucket root tblNameNamespace other).
Proof.
  intros (-> & Hsave)%AddNamespace_Reply. split; [done|]. split.
  - pose proof Hsave as Hs.
    apply SaveValue_ok, SaveValue_tx_ok in Hs as (bucket & buffers & Hser & -> & _).
    exists bucket, buffers. split; [done|]. split.
    { cbn. tauto. }
    by rewrite GetNamespace_cases, getBucket_insert.
  - intros other Hne.
    pose proof (SaveValue_other_records root tblNameNamespace
                  (model.Name namespace) (namespaceObject (validated namespace))
                  tblNameNamespace other) as E.
    rewrite Hsave in E. apply E. by right.
Qed.

(** X18: UpdateNamespace and UpdateNamespaceToken of a namespace that the
    store does not hold return nil and write nothing: the caller is not
    told that there was nothing to update. *)
Theorem UpdateNamespace_missing_reports_success range now (root : Bkt)
    namespace token :
  getBucket root tblNameNamespace (model.Name namespace) = None →
  model.Name namespace ≠ "" →
  model.Owner namespace ≠ "" →
  token ≠ "" →
  UpdateNamespace range now root namespace = (root, Reply tt)
  ∧ UpdateNamespaceToken range now root (model.Name namespace) token
    = (root, Reply tt)
  ∧ GetNamespace root (model.Name namespace) = Reply None.
Proof.
  intros Hmiss Hname Howner Htoken. split; [|split].
  - unfold UpdateNamespace. rewrite decide_False by tauto.
    unfold UpdateValue, db_Update. by rewrite UpdateValue_tx_missing.
  - unfold UpdateNamespaceToken. rewrite decide_False by tauto.
    unfold UpdateValue, db_Update. by rewrite UpdateValue_tx_missing.
  - by rewrite GetNamespace_cases, Hmiss.
Qed.

End namespace_facts.

Section namespace_update.
Context `{Codec}.

Lemma UpdateValue_property_plain (bucket : Bkt) propKey propValue :
  plain propValue →
  ∃ buf, encodeProperty propValue = Some buf
         ∧ UpdateValue_property bucket propKey propValue
           = bolt.Put bucket (toBucketField propKey) buf.
Proof.
  destruct propValue as [|s|b|w n|w n|m|m|t|kind]; try done; intros _;
    eexists; (split; [done|]); cbn; by rewrite ?decide_True by done.
Qed.

Lemma Put_never_panics (b : Bkt) key value msg :
  bolt.Put b key value ≠ Panic msg.
Proof.
  unfold bolt.Put. repeat case_decide; try done.
  by destruct (b !! key) as [[v|c]|].
Qed.

Lemma UpdateValue_range_plain (bucket : Bkt) properties :
  (∀ p v, (p, v) ∈ properties → plain v) →
  (∀ msg, UpdateValue_range bucket properties ≠ Panic msg)
  ∧ ∀ bucket',
      UpdateValue_range bucket properties = Ok bucket' →
      (∀ k, k ∉ toBucketField <$> properties.*1 → bucket' !! k = bucket !! k)
      ∧ (Inj (=) (=) toBucketField → NoDup properties.*1 →
         ∀ p v buf, (p, v) ∈ properties → encodeProperty v = Some buf →
                    bucket' !! toBucketField p = Some (Leaf buf)).
Proof.
  revert bucket. induction properties as [|[p v] rest IH]; intros bucket Hplain.
  { split; [done|]. intros bucket' [= <-]. split; [done|].
    intros _ _ p v buf Hin. by apply elem_of_nil in Hin. }
  assert (∀ p v, (p, v) ∈ rest → plain v) as Hrest.
  { intros p' v' Hin. eapply Hplain. by right. }
  destruct (UpdateValue_property_plain bucket p v) as (buf & Henc & Hstep).
  { eapply Hplain. left. }
  cbn [UpdateValue_range]. rewrite Hstep.
  destruct (bolt.Put bucket (toBucketField p) buf) as [bucket1|e|msg] eqn:Hput.
  - cbn [mbind outcome_bind]. destruct (IH bucket1 Hrest) as [Hnp Hok].
    split; [done|]. intros bucket' Hrun. destruct (Hok _ Hrun) as [Hframe Hwrite].
    apply Put_ok in Hput as ->. split.
    + intros k Hk. rewrite !fmap_cons in Hk. apply not_elem_of_cons in Hk as [Hne Hk].
      rewrite (Hframe _ Hk). by apply lookup_insert_ne.
    + intros Hinj Hnd p' v' buf' Hin Henc'. rewrite fmap_cons in Hnd.
      apply NoDup_cons in Hnd as [Hp Hnd].
      apply elem_of_cons in Hin as [[= -> ->]|Hin]; [|by eapply Hwrite].
      rewrite Hframe.
      * rewrite lookup_insert_eq. congruence.
      * intros (p'' & Heq & Hin')%list_elem_of_fmap. apply Hinj in Heq as <-. done.
  - split; [done|done].
  - by destruct (Put_never_panics bucket (toBucketField p) buf msg).
Qed.

(** What an update of a record with plain properties does: it does not
    panic, it leaves alone the entries no property maps to, and when it
    returns nil the entry of each property is its tagged buffer. *)
Lemma UpdateValue_plain (root : Bkt) typ key properties bucket root' r :
  (∀ p v, (p, v) ∈ properties → plain v) →
  getBucket root typ key = Some bucket →
  UpdateValue root typ key properties = (root', r) →
  (∀ msg, r ≠ Panic msg)
  ∧ ∃ bucket',
      getBucket root' typ key = Some bucket'
      ∧ (∀ k, k ∉ toBucketField <$> properties.*1 → bucket' !! k = bucket !! k)
      ∧ (r = Ok tt → Inj (=) (=) toBucketField → NoDup properties.*1 →
         ∀ p v buf, (p, v) ∈ properties → encodeProperty v = Some buf →
                    bucket' !! toBucketField p = Some (Leaf buf)).
Proof.
  intros Hplain Hb Hrun. pose proof Hb as Hb0.
  unfold UpdateValue, db_Update, UpdateValue_tx in Hrun. unfold getBucket in Hb.
  destruct (tx_Bucket root typ) as [typeBucket|]; [|done]. rewrite Hb in Hrun.
  destruct (UpdateValue_range_plain bucket properties Hplain) as [Hnp Hok].
  destruct (decide (length properties = 0%nat)) as [Hlen|Hlen].
  { injection Hrun as <- <-. split; [done|]. exists bucket. split; [done|].
    split; [done|]. intros _ _ _ p v buf Hin. destruct properties; [|done].
    by apply elem_of_nil in Hin. }
  destruct (UpdateValue_range bucket properties) as [bucket'|e|msg] eqn:Hr;
    cbn in Hrun; injection Hrun as <- <-.
  - split; [done|]. exists bucket'. destruct (Hok _ eq_refl) as [Hframe Hwrite].
    split; [apply getBucket_insert|]. split; [done|]. intros _. apply Hwrite.
  - split; [done|]. exists bucket. split; [done|]. split; [done|]. done.
  - by destruct (Hnp msg).
Qed.

Lemma range_elem (range : gmap string gvalue → list (string * gvalue))
    (m : gmap string gvalue) p v :
  (∀ m, range m ≡ₚ map_to_list m) →
  (p, v) ∈ range m ↔ m !! p = Some v.
Proof. intros Hrange. by rewrite Hrange, elem_of_map_to_list. Qed.

Lemma range_NoDup (range : gmap string gvalue → list (string * gvalue))
    (m : gmap string gvalue) :
  (∀ m, range m ≡ₚ map_to_list m) → NoDup (range m).*1.
Proof. intros Hrange. rewrite Hrange. apply NoDup_fst_map_to_list. Qed.

Lemma range_keys (range : gmap string gvalue → list (string * gvalue))
    (m : gmap string gvalue) p :
  (∀ m, range m ≡ₚ map_to_list m) →
  p ∈ (range m).*1 ↔ is_Some (m !! p).
Proof.
  intros Hrange. rewrite list_elem_of_fmap. split.
  - intros ([p' v] & -> & Hin). apply range_elem in Hin; [|done]. by eexists.
  - intros [v Hv]. exists (p, v). split; [done|]. by apply range_elem.
Qed.

(** X19: UpdateNamespace of a stored namespace never panics and, in
    whatever order the runtime ranges over the property map, touches no
    entry of the record but those of Owner, Comment and ModifyTime: the
    token, the name, the validity and the creation time stay as stored.
    When it returns nil these three entries hold the tagged buffers of the
    new owner, the new comment and the reading of the clock.  (The field
    mapper is injective: the contract of the codec.) *)
Theorem UpdateNamespace_writes_three_fields range now (root : Bkt) namespace
    bucket root' r :
  (∀ m, range m ≡ₚ map_to_list m) →
  Inj (=) (=) toBucketField →
  getBucket root tblNameNamespace (model.Name namespace) = Some bucket →
  UpdateNamespace range now root namespace = (root', r) →
  (∀ msg, r ≠ Panicked msg)
  ∧ ∃ bucket',
      getBucket root' tblNameNamespace (model.Name namespace) = Some bucket'
      ∧ (∀ field, field ∉ ["Owner"; "Comment"; "ModifyTime"] →
           bucket' !! toBucketField field = bucket !! toBucketField field)
      ∧ (r = Reply tt →
         bucket' !! toBucketField "Owner"
           = Some (Leaf (encodeStringBuffer (model.Owner namespace)))
         ∧ bucket' !! toBucketField "Comment"
           = Some (Leaf (encodeStringBuffer (model.Comment namespace)))
         ∧ bucket' !! toBucketField "ModifyTime"
           = Some (Leaf (encodeTimeBuffer now))).
Proof.
  intros Hrange Hinj Hb. unfold UpdateNamespace.
  case_decide as Hparam.
  { intros [= <- <-]. split; [done|]. exists bucket. by repeat split. }
  set (properties := <["ModifyTime" := VTime now]>
        (<["Comment" := VString (model.Comment namespace)]>
           (<["Owner" := VString (model.Owner namespace)]> ∅))).
  destruct (UpdateValue root tblNameNamespace (model.Name namespace)
              (range properties)) as [root1 r1] eqn:Hrun.
  intros [= <- <-].
  assert (∀ p v, (p, v) ∈ range properties → plain v) as Hplain.
  { intros p v Hin%range_elem; [|done]. unfold properties in Hin.
    repeat (apply lookup_insert_Some in Hin as [[_ <-]|[_ Hin]]; [done|]).
    by rewrite lookup_empty in Hin. }
  destruct (UpdateValue_plain _ _ _ _ _ _ _ Hplain Hb Hrun)
    as (Hnp & bucket' & Hb' & Hframe & Hwrite).
  split. { intros msg. destruct r1; [done..|]. intros [= ->]. by eapply Hnp. }
  exists bucket'. split; [done|]. split.
  - intros field Hfield. apply Hframe.
    intros (p & Heq & Hin)%list_elem_of_fmap. apply Hinj in Heq as <-.
    apply range_keys in Hin as [v Hv]; [|done]. apply Hfield.
    unfold properties in Hv.
    repeat (apply lookup_insert_Some in Hv as [[<- _]|[_ Hv]];
            [rewrite !elem_of_cons; tauto|]).
    by rewrite lookup_empty in Hv.
  - intros Hr. assert (r1 = Ok tt) as -> by (destruct r1 as [[]| |]; done).
    specialize (Hwrite eq_refl Hinj (range_NoDup _ _ Hrange)).
    repeat split; eapply Hwrite; try (apply range_elem; [done|]); try done.
Qed.

(** X20: UpdateNamespaceToken of a stored namespace never panics and
    touches no entry of the record but those of Token and ModifyTime: the
    owner and the comment stay as stored.  When it returns nil the token
    entry holds the tagged buffer of the new token. *)
Theorem UpdateNamespaceToken_writes_two_fields range now (root : Bkt) name token
    bucket root' r :
  (∀ m, range m ≡ₚ map_to_list m) →
  Inj (=) (=) toBucketField →
  getBucket root tblNameNamespace name = Some bucket →
  UpdateNamespaceToken range now root name token = (root', r) →
  (∀ msg, r ≠ Panicked msg)
  ∧ ∃ bucket',
      getBucket root' tblNameNamespace name = Some bucket'
      ∧ (∀ field, field ∉ ["Token"; "ModifyTime"] →
           bucket' !! toBucketField field = bucket !! toBucketField field)
      ∧ (r = Reply tt →
         bucket' !! toBucketField "Token"
           = Some (Leaf (encodeStringBuffer token))
         ∧ bucket' !! toBucketField "ModifyTime"
           = Some (Leaf (encodeTimeBuffer now))).
Proof.
  intros Hrange Hinj Hb. unfold UpdateNamespaceToken.
  case_decide as Hparam.
  { intros [= <- <-]. split; [done|]. exists bucket. by repeat split. }
  set (properties := <["ModifyTime" := VTime now]>
                       (<["Token" := VString token]> ∅)).
  destruct (UpdateValue root tblNameNamespace name (range properties))
    as [root1 r1] eqn:Hrun.
  intros [= <- <-].
  assert (∀ p v, (p, v) ∈ range properties → plain v) as Hplain.
  { intros p v Hin%range_elem; [|done]. unfold properties in Hin.
    repeat (apply lookup_insert_Some in Hin as [[_ <-]|[_ Hin]]; [done|]).
    by rewrite lookup_empty in Hin. }
  destruct (UpdateValue_plain _ _ _ _ _ _ _ Hplain Hb Hrun)
    as (Hnp & bucket' & Hb' & Hframe & Hwrite).
  split. { intros msg. destruct r1; [done..|]. intros [= ->]. by eapply Hnp. }
  exists bucket'. split; [done|]. split.
  - intros field Hfield. apply Hframe.
    intros (p & Heq & Hin)%list_elem_of_fmap. apply Hinj in Heq as <-.
    apply range_keys in Hin as [v Hv]; [|done]. apply Hfield.
    unfold properties in Hv.
    repeat (apply lookup_insert_Some in Hv as [[<- _]|[_ Hv]];
            [rewrite !elem_of_cons; tauto|]).
    by rewrite lookup_empty in Hv.
  - intros Hr. assert (r1 = Ok tt) as -> by (destruct r1 as [[]| |]; done).
    specialize (Hwrite eq_refl Hinj (range_NoDup _ _ Hrange)).
    repeat split; eapply Hwrite; try (apply range_elem; [done|]); try done.
Qed.

End namespace_update.

Section namespace_init.
Context `{Codec}.

Lemma SaveValue_failed (root : Bkt) typ key value root' r :
  SaveValue root typ key value = (root', r) → r ≠ Ok tt → root' = root.
Proof.
  unfold SaveValue, db_Update.
  destruct (SaveValue_tx typ key value root); intros [= <- <-]; done.
Qed.

Lemma SaveValue_stored (root : Bkt) typ key value root' :
  SaveValue root typ key value = (root', Ok tt) →
  is_Some (getBucket root' typ key).
Proof.
  intros (bucket & buffers & _ & -> & _)%SaveValue_ok%SaveValue_tx_ok.
  rewrite getBucket_insert. by eexists.
Qed.

Lemma AddNamespace_store (root : Bkt) namespace namespace' root' r :
  AddNamespace root namespace = (namespace', (root', r)) →
  (∀ other, other ≠ model.Name namespace →
     getBucket root' tblNameNamespace other = getBucket root tblNameNamespace other)
  ∧ (r = Reply tt → is_Some (getBucket root' tblNameNamespace (model.Name namespace)))
  ∧ (r ≠ Reply tt → root' = root)
  ∧ (model.Name namespace ≠ "" → model.Owner namespace ≠ "" →
     model.Token namespace ≠ "" → ∀ msg, r ≠ OwnError msg).
Proof.
  unfold AddNamespace. case_decide as Hparam.
  { intros [= <- <- <-]. repeat split; try done. intros; tauto. }
  fold (validated namespace).
  change (model.Name (validated namespace)) with (model.Name namespace).
  destruct (SaveValue root tblNameNamespace (model.Name namespace)
              (namespaceObject (validated namespace))) as [root1 r1] eqn:Hrun.
  intros [= <- <- <-]. split; [|split; [|split]].
  - intros other Hne.
    pose proof (SaveValue_other_records root tblNameNamespace
                  (model.Name namespace) (namespaceObject (validated namespace))
                  tblNameNamespace other) as Hother.
    rewrite Hrun in Hother. apply Hother. by right.
  - intros Hr. destruct r1 as [[]|e|msg]; [|done..]. by eapply SaveValue_stored.
  - intros Hr. eapply SaveValue_failed; [done|]. by intros ->.
  - intros _ _ _ msg. by destruct r1.
Qed.

Lemma InitData_range_store now (namespaces : list string) (root : Bkt) root' r :
  InitData_range now root namespaces = (root', r) →
  (∀ name bucket, getBucket root tblNameNamespace name = Some bucket →
                  getBucket root' tblNameNamespace name = Some bucket)
  ∧ (∀ name, name ∉ namespaces →
             getBucket root' tblNameNamespace name = getBucket root tblNameNamespace name)
  ∧ (r = Reply tt →
     ∀ name, name ∈ namespaces → is_Some (getBucket root' tblNameNamespace name))
  ∧ ((∀ name, name ∈ namespaces → name ≠ "" ∧ namespaceToToken name ≠ "") →
     ∀ msg, r ≠ OwnError msg).
Proof.
  revert root. induction namespaces as [|namespace rest IH]; intros root.
  { intros [= <- <-]. repeat split; try done. intros _ name Hin.
    by apply elem_of_nil in Hin. }
  cbn [InitData_range]. rewrite GetNamespace_cases.
  destruct (getBucket root tblNameNamespace namespace) as [bucket|] eqn:Hb.
  - destruct (deserializeObject bucket namespaceShape) as [obj|e|msg].
    + intros (Hkeep & Hframe & Hall & Hown)%IH. split; [done|]. split; [|split].
      * intros name [_ Hname]%not_elem_of_cons. by apply Hframe.
      * intros Hr name [->|Hin]%elem_of_cons; [|by apply Hall].
        rewrite (Hkeep _ _ Hb). by eexists.
      * intros Hnames. apply Hown. intros name Hin. apply Hnames. by right.
    + intros [= <- <-]. by repeat split.
    + intros [= <- <-]. by repeat split.
  - match goal with
    | |- context [AddNamespace root ?ns] =>
        destruct (AddNamespace root ns) as [namespace' [root1 r1]] eqn:Hadd
    end.
    apply AddNamespace_store in Hadd as (Hother & Hstored & Hfailed & Hnoown).
    cbn [model.Name model.Owner model.Token] in *.
    assert (∀ name bucket, getBucket root tblNameNamespace name = Some bucket →
              getBucket root1 tblNameNamespace name = Some bucket) as Hkeep1.
    { intros name bucket Hname. rewrite Hother; [done|]. intros ->. congruence. }
    destruct r1 as [[]|msg|e|msg].
    + intros (Hkeep & Hframe & Hall & Hown)%IH. split; [|split; [|split]].
      * intros name bucket Hname. by apply Hkeep, Hkeep1.
      * intros name [Hne Hname]%not_elem_of_cons.
        rewrite Hframe by done. by apply Hother.
      * intros Hr name [->|Hin]%elem_of_cons; [|by apply Hall].
        destruct (Hstored eq_refl) as [bucket Hbucket].
        rewrite (Hkeep _ _ Hbucket). by eexists.
      * intros Hnames. apply Hown. intros name Hin. apply Hnames. by right.
    + intros [= <- <-]. rewrite Hfailed by done. repeat split; try done.
      intros Hnames msg' _. destruct (Hnames namespace) as [? ?]; [left|].
      by eapply (Hnoown).
    + intros [= <- <-]. rewrite Hfailed by done. by repeat split.
    + intros [= <- <-]. rewrite Hfailed by done. by repeat split.
Qed.

Lemma InitData_range_present now (namespaces : list string) (root : Bkt) :
  (∀ name, name ∈ namespaces → is_Some (getBucket root tblNameNamespace name)) →
  (InitData_range now root namespaces).1 = root.
Proof.
  induction namespaces as [|namespace rest IH]; intros Hall; [done|].
  cbn [InitData_range]. rewrite GetNamespace_cases.
  destruct (Hall namespace) as [bucket ->]; [left|].
  destruct (deserializeObject bucket namespaceShape) as [obj|e|msg]; [|done..].
  apply IH. intros name Hin. apply Hall. by right.
Qed.

(** X21: InitData adds the namespaces "default" and "Polaris" that the
    store lacks and nothing else: a namespace that is stored is never
    overwritten, no other name is touched, and its own parameter check
    never fires.  When it returns nil both namespaces are stored, and a
    second InitData, at any time, leaves the store as it is. *)
Theorem InitData_adds_missing_defaults now (root : Bkt) root' r :
  InitData now root = (root', r) →
  (∀ msg, r ≠ OwnError msg)
  ∧ (∀ name bucket, getBucket root tblNameNamespace name = Some bucket →
                    getBucket root' tblNameNamespace name = Some bucket)
  ∧ (∀ name, name ∉ [defaultNamespace; polarisNamespace] →
             getBucket root' tblNameNamespace name = getBucket root tblNameNamespace name)
  ∧ (r = Reply tt →
     is_Some (getBucket root' tblNameNamespace defaultNamespace)
     ∧ is_Some (getBucket root' tblNameNamespace polarisNamespace)
     ∧ ∀ now', (InitData now' root').1 = root').
Proof.
  intros (Hkeep & Hframe & Hall & Hown)%InitData_range_store.
  split; [|split; [done|split; [done|]]].
  - apply Hown. intros name Hin. rewrite !elem_of_cons in Hin.
    destruct Hin as [->|[->|Hin]]; [done|done|]. by apply elem_of_nil in Hin.
  - intros Hr. specialize (Hall Hr). split; [|split].
    + apply Hall. left.
    + apply Hall. right. left.
    + intros now'. by apply InitData_range_present.
Qed.

End namespace_init.

Section namespace_pages.
Context `{Codec}.

Lemma wrap64_id (z : Z) : - 2 ^ 63 ≤ z < 2 ^ 63 → wrap64 z = z.
Proof. intros Hz. unfold wrap64. rewrite Z.mod_small; lia. Qed.

(** X22: the page GetNamespaces returns.  With [start = offset * limit] (in
    the range of int) over [n] stored namespaces: nil when [start >= n], also
    for a negative limit; otherwise a panic of the slice expression when
    [start] or [limit] is negative; otherwise the [limit] namespaces after
    the first [start] ones, fewer at the end of the list.  The count
    returned is 0 in every case. *)
Theorem GetNamespaces_page (arrange : gmap string object → list object)
    (root : Bkt) filter offset limit values :
  (∀ m, arrange m ≡ₚ (map_to_list m).*2) →
  (LoadValuesAll root tblNameNamespace namespaceShape).2 = (values, Ok tt) →
  - 2 ^ 63 ≤ limit < 2 ^ 63 →
  - 2 ^ 63 ≤ offset * limit < 2 ^ 63 →
  Z.of_nat (size values) < 2 ^ 62 →
  GetNamespaces arrange root filter offset limit
  = if decide (Z.of_nat (size values) ≤ offset * limit) then Reply (None, 0)
    else if decide (offset * limit < 0 ∨ limit < 0)
         then Panicked "slice bounds out of range"
         else Reply (Some (take (Z.to_nat limit)
                             (drop (Z.to_nat (offset * limit)) (arrange values))), 0).
Proof.
  intros Harrange Hload Hlimit Hstart Hsize. unfold GetNamespaces.
  destruct (LoadValuesAll root tblNameNamespace namespaceShape) as [t [values' r]].
  injection Hload as -> ->.
  assert (length (arrange values) = size values) as Hlen.
  { by rewrite Harrange, length_fmap, length_map_to_list. }
  rewrite Hlen, (wrap64_id (offset * limit)) by done.
  destruct (decide (Z.of_nat (size values) ≤ offset * limit)) as [|Hlt]; [done|].
  destruct (decide (offset * limit < 0 ∨ limit < 0)) as [Hneg|Hpos].
  - rewrite decide_False; [done|]. intros [Hge Hle].
    destruct Hneg as [?|Hneg]; [lia|].
    rewrite wrap64_id in Hle by lia.
    destruct (decide (Z.of_nat (size values) < offset * limit + limit)); lia.
  - assert (offset * limit + limit < 2 ^ 63) as Hend.
    { destruct (decide (offset * limit = 0)) as [->|Hne]; [lia|].
      assert (0 ≤ limit ∧ 0 ≤ offset * limit) as [Hl Hp] by lia.
      assert (1 ≤ offset) as Hoffset.
      { destruct (decide (offset ≤ 0)) as [Hle|?]; [|lia].
        pose proof (Z.mul_nonpos_nonneg offset limit Hle Hl). lia. }
      pose proof (Z.mul_le_mono_nonneg_r 1 offset limit Hl Hoffset). lia. }
    rewrite wrap64_id by lia.
    rewrite decide_True.
    2:{ destruct (decide (Z.of_nat (size values) < offset * limit + limit)); lia. }
    destruct (decide (Z.of_nat (size values) < offset * limit + limit)) as [Hclamp|Hfit].
    + rewrite !take_ge; [done|..]; rewrite length_drop, Hlen; lia.
    + by replace (offset * limit + limit - offset * limit) with limit by lia.
Qed.

End namespace_pages.

(** ** The further properties on the small stores *)

Section more_examples.
#[local] Existing Instance refcodec.codec.

Ltac compute_eq := vm_compute; reflexivity.
Ltac decide_by_compute :=
  refine (bool_decide_unpack _ _); vm_compute; exact I.

(** A run is named by its outcome alone, a bucket that is there by the
    fact that it is: the stores themselves need not be written out. *)
Lemma run_by_outcome {A B} (run : A * B) (r : B) : run.2 = r → run = (run.1, r).
Proof. destruct run. simpl. congruence. Qed.

Lemma found_by_presence {A} (found : option A) (d : A) :
  is_Some found → found = Some (default d found).
Proof. by intros [a ->]. Qed.

Ltac run_eq := apply run_by_outcome; vm_compute; reflexivity.
Ltac found_eq := apply found_by_presence; decide_by_compute.

Lemma SaveValue_then_LoadValues_witness :
  ∃ bucket buffers,
    serializeObject ∅ demo.svcA = Ok (bucket, buffers)
    ∧ LoadValues demo.store1 "svc" ["a"] demo.Service
      = match deserializeObject ((Leaf <$> buffers) ∪ bucket) demo.Service with
        | Ok obj => ({["a" := obj]}, Ok tt)
        | Err e => (∅, Err e)
        | Panic msg => (∅, Panic msg)
        end.
Proof. apply (SaveValue_then_LoadValues ∅ "svc" "a" demo.svcA). run_eq. Defined.

Lemma SaveValue_leaves_other_records_witness :
  getBucket (SaveValue demo.store1 "svc" "b" demo.svcB).1 "svc" "a"
  = getBucket demo.store1 "svc" "a".
Proof. apply SaveValue_leaves_other_records. right. discriminate. Defined.

Lemma SaveValue_rejects_empty_names_witness :
  SaveValue ∅ "svc" "" demo.svcA = (∅, Err ErrBucketNameRequired).
Proof.
  apply SaveValue_rejects_empty_names; [by right|].
  intros v. by rewrite lookup_empty.
Defined.

Lemma SaveValue_last_write_wins_witness :
  SaveValue ∅ "svc" "a" demo.svcB
  = ((SaveValue demo.store1 "svc" "a" demo.svcB).1, Ok tt).
Proof.
  apply (SaveValue_last_write_wins ∅ "svc" "a" demo.svcA demo.svcB demo.store1);
    run_eq.
Defined.

Lemma UpdateValue_writes_properties_witness :
  ∃ bucket',
    getBucket (UpdateValue demo.store1 "svc" "a" [("Name", VString "Y")]).1
      "svc" "a" = Some bucket'
    ∧ ∀ propKey propValue buf,
        (propKey, propValue) ∈ [("Name", VString "Y")] →
        encodeProperty propValue = Some buf →
        bucket' !! toBucketField propKey = Some (Leaf buf)
        ∧ bolt.Get bucket' (toBucketField propKey) = Some buf.
Proof.
  apply (UpdateValue_writes_properties demo.store1 "svc" "a"
           [("Name", VString "Y")] _
           (default ∅ (getBucket demo.store1 "svc" "a"))
           refcodec_mapper_inj refcodec_rawMapConfined);
    [decide_by_compute | found_eq | run_eq].
Defined.

Lemma UpdateValue_skips_kinds_without_case_witness :
  UpdateValue demo.store1 "svc" "a"
    ([("Name", VString "Y")] ++ ("Weight", VOther KFloat64) :: [("ID", VString "a2")])
  = UpdateValue demo.store1 "svc" "a"
      ([("Name", VString "Y")] ++ [("ID", VString "a2")]).
Proof.
  apply UpdateValue_skips_kinds_without_case; [decide_by_compute|].
  intros w. split; discriminate.
Defined.

Lemma putBuffers_any_order_witness :
  putBuffers ∅ [("ID", [x01; x61]); ("Name", [x01; x58])]
  = Ok {["ID" := Leaf [x01; x61]; "Name" := Leaf [x01; x58]]}
  ↔ putBuffers ∅ [("Name", [x01; x58]); ("ID", [x01; x61])]
    = Ok {["ID" := Leaf [x01; x61]; "Name" := Leaf [x01; x58]]}.
Proof.
  apply putBuffers_any_order; [decide_by_compute|]. apply perm_swap.
Defined.

Lemma LoadValuesByFilter_returns_matches_witness :
  (LoadValuesByFilter demo.store2 "svc" ["Meta"] demo.Service
     (Some demo.hasMeta)).2.1 !! "a" = Some demo.svcA
  ↔ ∃ bucket fieldValues,
      getBucket demo.store2 "svc" "a" = Some bucket
      ∧ (matchObject_range bucket ["Meta"] demo.Service ∅).2 = Ok fieldValues
      ∧ demo.hasMeta fieldValues = true
      ∧ deserializeObject bucket demo.Service = Ok demo.svcA.
Proof.
  apply LoadValuesByFilter_returns_matches; [discriminate | compute_eq].
Defined.

Lemma LoadValuesByFilter_rejecting_filter_witness :
  (LoadValuesByFilter demo.store2 "svc" ["Meta"] demo.Service
     (Some (λ _, false))).2.1 = ∅.
Proof.
  apply LoadValuesByFilter_rejecting_filter; [discriminate | reflexivity].
Defined.

Lemma IterateFields_calls_once_per_record_witness :
  Forall2 (λ key fieldObj,
             ∃ bucket, getBucket demo.store2 "svc" key = Some bucket
                       ∧ (getFieldObject bucket demo.Service "Name").2 = Ok fieldObj)
          (filter (λ key, is_Some (getBucket demo.store2 "svc" key))
             (getKeys (typeBucketOf demo.store2 "svc")))
          (processCalls
             (IterateFields demo.store2 "svc" "Name" demo.Service false).1)
  ∧ IterateFields demo.store2 "svc" "Name" demo.Service true = ([], Ok tt).
Proof.
  assert (tx_Bucket demo.store2 "svc" = Some (typeBucketOf demo.store2 "svc"))
    as Hb by found_eq.
  assert (IterateFields demo.store2 "svc" "Name" demo.Service false
          = ((IterateFields demo.store2 "svc" "Name" demo.Service false).1, Ok tt))
    as Hrun by run_eq.
  destruct (IterateFields_calls_once_per_record _ _ _ _ _ _ Hb Hrun)
    as (Hcalls & _ & _ & Hnil).
  split; [exact Hcalls | exact Hnil].
Defined.

Lemma reachable_counts_records_witness :
  wellFormed demo.store2
  ∧ CountValues demo.store2 "svc"
    = (Z.of_nat (size (recordBuckets (typeBucketOf demo.store2 "svc"))), Ok tt).
Proof.
  apply reachable_counts_records.
  apply (reachable_save demo.store1 "svc" "b" demo.svcB).
  apply (reachable_save ∅ "svc" "a" demo.svcA).
  apply reachable_empty.
Defined.

Lemma AddNamespace_then_GetNamespace_witness :
  model.Valid (validated demo.nsA) = true
  ∧ (∃ bucket buffers,
       serializeObject ∅ (namespaceObject (validated demo.nsA))
       = Ok (bucket, buffers)
       ∧ In ("Valid", VBool true) (namespaceObject (validated demo.nsA))
       ∧ GetNamespace demo.storeN (model.Name demo.nsA)
         = match deserializeObject ((Leaf <$> buffers) ∪ bucket) namespaceShape with
           | Ok obj => Reply (Some obj)
           | Err e => HandlerError e
           | Panic msg => Panicked msg
           end)
  ∧ (∀ other, other ≠ model.Name demo.nsA →
       getBucket demo.storeN tblNameNamespace other
       = getBucket ∅ tblNameNamespace other).
Proof.
  apply (AddNamespace_then_GetNamespace ∅ demo.nsA).
  apply run_by_outcome. run_eq.
Defined.

Lemma UpdateNamespace_missing_reports_success_witness :
  UpdateNamespace demo.rangeByKey 300 ∅ demo.nsA = (∅, Reply tt)
  ∧ UpdateNamespaceToken demo.rangeByKey 300 ∅ "ns1" "t2" = (∅, Reply tt)
  ∧ GetNamespace ∅ "ns1" = Reply None.
Proof.
  apply (UpdateNamespace_missing_reports_success demo.rangeByKey 300 ∅
           demo.nsA "t2"); [reflexivity | discriminate..].
Defined.

Lemma UpdateNamespace_writes_three_fields_witness :
  (∀ msg, (UpdateNamespace demo.rangeByKey 300 demo.storeN demo.nsA).2
          ≠ Panicked msg)
  ∧ ∃ bucket',
      getBucket (UpdateNamespace demo.rangeByKey 300 demo.storeN demo.nsA).1
        tblNameNamespace "ns1" = Some bucket'
      ∧ (∀ field, field ∉ ["Owner"; "Comment"; "ModifyTime"] →
           bucket' !! toBucketField field
           = default ∅ (getBucket demo.storeN tblNameNamespace "ns1")
               !! toBucketField field)
      ∧ ((UpdateNamespace demo.rangeByKey 300 demo.storeN demo.nsA).2
         = Reply tt →
         bucket' !! toBucketField "Owner"
           = Some (Leaf (encodeStringBuffer "user1"))
         ∧ bucket' !! toBucketField "Comment"
           = Some (Leaf (encodeStringBuffer "first"))
         ∧ bucket' !! toBucketField "ModifyTime"
           = Some (Leaf (encodeTimeBuffer 300))).
Proof.
  apply (UpdateNamespace_writes_three_fields demo.rangeByKey 300 demo.storeN
           demo.nsA);
    [reflexivity | exact refcodec_mapper_inj | found_eq | apply surjective_pairing].
Defined.

Lemma UpdateNamespaceToken_writes_two_fields_witness :
  (∀ msg, (UpdateNamespaceToken demo.rangeByKey 300 demo.storeN "ns1" "t2").2
          ≠ Panicked msg)
  ∧ ∃ bucket',
      getBucket (UpdateNamespaceToken demo.rangeByKey 300 demo.storeN "ns1" "t2").1
        tblNameNamespace "ns1" = Some bucket'
      ∧ (∀ field, field ∉ ["Token"; "ModifyTime"] →
           bucket' !! toBucketField field
           = default ∅ (getBucket demo.storeN tblNameNamespace "ns1")
               !! toBucketField field)
      ∧ ((UpdateNamespaceToken demo.rangeByKey 300 demo.storeN "ns1" "t2").2
         = Reply tt →
         bucket' !! toBucketField "Token" = Some (Leaf (encodeStringBuffer "t2"))
         ∧ bucket' !! toBucketField "ModifyTime"
           = Some (Leaf (encodeTimeBuffer 300))).
Proof.
  apply (UpdateNamespaceToken_writes_two_fields demo.rangeByKey 300 demo.storeN);
    [reflexivity | exact refcodec_mapper_inj | found_eq | apply surjective_pairing].
Defined.

Lemma InitData_adds_missing_defaults_witness :
  (InitData demo.clock demo.storeN).2 = Reply tt
  ∧ is_Some (getBucket (InitData demo.clock demo.storeN).1
               tblNameNamespace defaultNamespace)
  ∧ getBucket (InitData demo.clock demo.storeN).1 tblNameNamespace "ns1"
    = getBucket demo.storeN tblNameNamespace "ns1".
Proof.
  assert ((InitData demo.clock demo.storeN).2 = Reply tt) as Hr by compute_eq.
  destruct (InitData_adds_missing_defaults demo.clock demo.storeN _ _
              (surjective_pairing _))
    as (_ & _ & Hframe & Hok).
  split; [exact Hr|]. split; [apply (Hok Hr)|].
  apply Hframe. decide_by_compute.
Defined.

Lemma GetNamespaces_page_witness :
  GetNamespaces demo.arrangeByKey demo.storeN ∅ 0 10
  = if decide (Z.of_nat (size (LoadValuesAll demo.storeN tblNameNamespace
                                 namespaceShape).2.1) ≤ 0 * 10)
    then Reply (None, 0)
    else if decide (0 * 10 < 0 ∨ 10 < 0)
         then Panicked "slice bounds out of range"
         else Reply (Some (take (Z.to_nat 10)
                             (drop (Z.to_nat (0 * 10))
                                (demo.arrangeByKey
                                   (LoadValuesAll demo.storeN tblNameNamespace
                                      namespaceShape).2.1))), 0).
Proof.
  apply GetNamespaces_page; [done | run_eq | lia | lia | by vm_compute].
Defined.

End more_examples.
